(** * The NBT tag decoder of mctool (package [nbt]), embedded and verified

    The Go package reads a decompressed NBT byte stream into a tree of typed
    nodes.  The embedding below follows the source function by function.

    - The [io.Reader] is modelled by the list of bytes that are still unread
      (the reader obtained from [bytes.NewReader]/[gzip.NewReader] once the
      payload is decompressed); the only read failures of such a reader are
      [io.EOF] and [io.ErrUnexpectedEOF].
    - A Go call returning [(T, error)] becomes a computation in the monad
      [M T]: it returns a value together with the rest of the stream, or an
      error, or a run-time panic.
    - [fmt.Println(childName)] in [readCompoundNode] writes to the process'
      standard output and influences neither the stream nor the result; the
      console is not part of the state modelled here.
    - Memory exhaustion is not modelled.
    - [ReadFromFile] and [ReadGZipFromStream] open and decompress the source
      and then call [ReadFromStream]; the development starts at
      [ReadFromStream], on the decompressed bytes. *)

From Stdlib Require Import ZArith Lia List Strings.Byte Ascii String.
From stdpp Require Import base option list strings gmap fin_maps.
Import ListNotations.

Set Warnings "-register-all".

Local Open Scope Z_scope.

(** ** Node types *)

(** [type NodeType byte] *)
Definition NodeType : Type := byte.

Definition NodeTypeEnd       : NodeType := x00.
Definition NodeTypeByte      : NodeType := x01.
Definition NodeTypeShort     : NodeType := x02.
Definition NodeTypeInt       : NodeType := x03.
Definition NodeTypeLong      : NodeType := x04.
Definition NodeTypeFloat     : NodeType := x05.
Definition NodeTypeDouble    : NodeType := x06.
Definition NodeTypeByteArray : NodeType := x07.
Definition NodeTypeString    : NodeType := x08.
Definition NodeTypeList      : NodeType := x09.
Definition NodeTypeCompound  : NodeType := x0a.
Definition NodeTypeIntArray  : NodeType := x0b.
Definition NodeTypeLongArray : NodeType := x0c.

(** ** Machine numbers *)

(** The unsigned value of a byte. *)
Definition u8 (b : byte) : Z := Z.of_N (Byte.to_N b).

(** Go's conversions [int16(x)], [int32(x)], [int64(x)] of an unsigned value
    of the same width: two's complement reinterpretation. *)
Definition to_signed (w : Z) (x : Z) : Z :=
  if x <? 2 ^ (w - 1) then x else x - 2 ^ w.

Definition int16 : Z -> Z := to_signed 16.
Definition int32 : Z -> Z := to_signed 32.
Definition int64 : Z -> Z := to_signed 64.

(** [b[i]] on a slice that is long enough. *)
Definition at_ (b : list byte) (i : nat) : Z := u8 (nth i b x00).

(** [binary.BigEndian.Uint16/Uint32/Uint64], as in encoding/binary. *)
Definition Uint16 (b : list byte) : Z :=
  Z.lor (at_ b 1) (Z.shiftl (at_ b 0) 8).

Definition Uint32 (b : list byte) : Z :=
  Z.lor (Z.lor (Z.lor (at_ b 3) (Z.shiftl (at_ b 2) 8))
               (Z.shiftl (at_ b 1) 16))
        (Z.shiftl (at_ b 0) 24).

Definition Uint64 (b : list byte) : Z :=
  Z.lor (Z.lor (Z.lor (Z.lor (Z.lor (Z.lor (Z.lor
    (at_ b 7)
    (Z.shiftl (at_ b 6) 8))
    (Z.shiftl (at_ b 5) 16))
    (Z.shiftl (at_ b 4) 24))
    (Z.shiftl (at_ b 3) 32))
    (Z.shiftl (at_ b 2) 40))
    (Z.shiftl (at_ b 1) 48))
    (Z.shiftl (at_ b 0) 56).

(** A [float32] (resp. [float64]) value is represented by its IEEE-754
    bit pattern; [math.Float32frombits] and [math.Float64frombits] are bit
    casts, hence the identity on this representation. *)
Record float32 : Type := Float32frombits { Float32bits : Z }.
Record float64 : Type := Float64frombits { Float64bits : Z }.

(** ** Nodes *)

(** The types implementing the interface [Node].  A slice [[]Node] holds
    interface values, which may be [nil]: its elements are [option Node]. *)
Inductive Node : Type :=
| ByteNode (Value : byte)
| ShortNode (Value : Z)
| IntNode (Value : Z)
| LongNode (Value : Z)
| FloatNode (Value : float32)
| DoubleNode (Value : float64)
| StringNode (Value : string)
| ListNode (Values : list (option Node))
| CompoundNode (Values : gmap string Node)
| IntArrayNode (Values : list (option Node)).

(** The method [Type()] of each implementation. *)
Definition Type_ (n : Node) : NodeType :=
  match n with
  | ByteNode _ => NodeTypeByte
  | ShortNode _ => NodeTypeShort
  | IntNode _ => NodeTypeInt
  | LongNode _ => NodeTypeLong
  | FloatNode _ => NodeTypeFloat
  | DoubleNode _ => NodeTypeDouble
  | StringNode _ => NodeTypeInt
  | ListNode _ => NodeTypeList
  | CompoundNode _ => NodeTypeCompound
  | IntArrayNode _ => NodeTypeIntArray
  end.

Record File : Type := mkFile { Root : Node }.

(** ** Errors, panics and the reader monad *)

(** The contexts added by [fmt.Errorf("...: %w", err)]. *)
Inductive context : Type :=
| ReadNbtData
| ReadListIndex (i : Z)
| ReadCompoundChild (childName : string).

Inductive error : Type :=
| EOF
| ErrUnexpectedEOF
| ErrUnsupportedNodeType (nodeType : NodeType)
| Wrapped (c : context) (err : error).

(** [errors.Unwrap] applied until the innermost error. *)
Fixpoint cause (e : error) : error :=
  match e with
  | Wrapped _ e' => cause e'
  | _ => e
  end.

(** The short-read errors of [io.ReadFull]. *)
Definition truncated (e : error) : Prop :=
  cause e = EOF \/ cause e = ErrUnexpectedEOF.

Inductive panic : Type :=
| MakesliceLenOutOfRange.

Inductive result (A : Type) : Type :=
| Ok (a : A)
| Err (e : error)
| Panic (p : panic)
| OutOfFuel.
Arguments Ok {A} a.
Arguments Err {A} e.
Arguments Panic {A} p.
Arguments OutOfFuel {A}.

Definition stream : Type := list byte.

Definition M (A : Type) : Type := stream -> result (A * stream).

Definition ret {A} (a : A) : M A := fun r => Ok (a, r).

Definition fail {A} (e : error) : M A := fun _ => Err e.

Definition bind {A B} (m : M A) (k : A -> M B) : M B :=
  fun r =>
    match m r with
    | Ok (a, r') => k a r'
    | Err e => Err e
    | Panic p => Panic p
    | OutOfFuel => OutOfFuel
    end.

(** [if err != nil { return nil, fmt.Errorf("<c>: %w", err) }] *)
Definition wrap {A} (c : context) (m : M A) : M A :=
  fun r =>
    match m r with
    | Err e => Err (Wrapped c e)
    | x => x
    end.

Notation "'let*' x ':=' m 'in' k" := (bind m (fun x => k))
  (at level 10, x name, m at level 100, k at level 200).

(** ** Raw reads *)

(** [io.ReadFull(r, buf)] with [len(buf) = n]: all [n] bytes or an error,
    [io.EOF] when no byte at all could be read. *)
Definition ReadFull (n : nat) : M (list byte) :=
  fun r =>
    if (n <=? length r)%nat then Ok (firstn n r, skipn n r)
    else if (length r =? 0)%nat then Err EOF
    else Err ErrUnexpectedEOF.

Definition readRawByte : M byte :=
  let* val := ReadFull 1 in ret (nth 0 val x00).

Definition readRawUShort : M Z :=
  let* val := ReadFull 2 in ret (Uint16 val).

Definition readRawInt : M Z :=
  let* val := ReadFull 4 in ret (int32 (Uint32 val)).

Definition readRawString : M string :=
  let* strLen := readRawUShort in
  let* val := ReadFull (Z.to_nat strLen) in
  ret (string_of_list_byte val).

Definition readRawNodeType : M NodeType :=
  let* val := readRawByte in ret val.

(** ** Node readers *)

Definition readByteNode : M Node :=
  let* val := readRawByte in ret (ByteNode val).

Definition readShortNode : M Node :=
  let* val := ReadFull 2 in ret (ShortNode (int16 (Uint16 val))).

Definition readIntNode : M Node :=
  let* val := readRawInt in ret (IntNode val).

Definition readLongNode : M Node :=
  let* val := ReadFull 8 in ret (LongNode (int64 (Uint64 val))).

Definition readFloatNode : M Node :=
  let* val := ReadFull 4 in ret (FloatNode (Float32frombits (Uint32 val))).

Definition readDoubleNode : M Node :=
  let* val := ReadFull 8 in ret (DoubleNode (Float64frombits (Uint64 val))).

Definition readStringNode : M Node :=
  let* val := readRawString in ret (StringNode val).

(** [make([]Node, n)]: a slice of [n] nil interface values; the Go run time
    panics ("makeslice: len out of range") when [n] is negative. *)
Definition make_Nodes (n : Z) : M (list (option Node)) :=
  fun r =>
    if n <? 0 then Panic MakesliceLenOutOfRange
    else Ok (repeat None (Z.to_nat n), r).

(** The body of [for i := range int(childCount)] in [readListNode] and
    [readIntArrayNode]: [n] iterations are left, the next index is [i], and
    [Values] is the slice built so far.  [child] is the call
    [readNodeOfType(r, <type>, false)]. *)
Fixpoint childLoop (child : M Node) (n : nat) (i : Z)
    (Values : list (option Node)) : M (list (option Node)) :=
  match n with
  | O => ret Values
  | S n' =>
      let* childNode := wrap (ReadListIndex i) child in
      childLoop child n' (i + 1) (Values ++ [Some childNode])
  end.

Section Readers.
(** The recursive calls [readNodeOfType(r, nodeType, false)]. *)
Variable rec : NodeType -> bool -> M Node.

Definition readListNode : M Node :=
  let* childNodeType := readRawNodeType in
  let* childCount := readRawInt in
  let* Values := make_Nodes childCount in
  let* Values := childLoop (rec childNodeType false)
                   (Z.to_nat childCount) 0 Values in
  ret (ListNode Values).

(** The [for { ... }] loop of [readCompoundNode]; [fuel] bounds the number
    of iterations. *)
Fixpoint compoundLoop (fuel : nat) (isRoot : bool)
    (Values : gmap string Node) : M (gmap string Node) :=
  match fuel with
  | O => fun _ => OutOfFuel
  | S fuel' =>
      let* childNodeType := readRawNodeType in
      if Byte.eqb childNodeType NodeTypeEnd then ret Values
      else
        let* childName := readRawString in
        let* childNode :=
          wrap (ReadCompoundChild childName) (rec childNodeType false) in
        let Values := <[childName := childNode]> Values in
        if isRoot then
          (* the root-node only has a single value *)
          ret Values
        else compoundLoop fuel' isRoot Values
  end.

Definition readCompoundNode (fuel : nat) (isRoot : bool) : M Node :=
  let* Values := compoundLoop fuel isRoot ∅ in
  ret (CompoundNode Values).

Definition readIntArrayNode : M Node :=
  let* childCount := readRawInt in
  let* Values := make_Nodes childCount in
  let* Values := childLoop (rec NodeTypeInt false)
                   (Z.to_nat childCount) 0 Values in
  ret (IntArrayNode Values).
End Readers.

(** [readNodeOfType]: the [switch] on the node type.  The three readers that
    call [readNodeOfType] again receive it with one unit of fuel less. *)
Fixpoint readNodeOfType_fuel (fuel : nat) (nodeType : NodeType)
    (isRoot : bool) {struct fuel} : M Node :=
  match nodeType with
  | x01 => readByteNode
  | x02 => readShortNode
  | x03 => readIntNode
  | x04 => readLongNode
  | x05 => readFloatNode
  | x06 => readDoubleNode
  | x08 => readStringNode
  | x09 =>
      match fuel with
      | O => fun _ => OutOfFuel
      | S fuel' => readListNode (readNodeOfType_fuel fuel')
      end
  | x0a =>
      match fuel with
      | O => fun _ => OutOfFuel
      | S fuel' => readCompoundNode (readNodeOfType_fuel fuel') fuel' isRoot
      end
  | x0b =>
      match fuel with
      | O => fun _ => OutOfFuel
      | S fuel' => readIntArrayNode (readNodeOfType_fuel fuel')
      end
  | _ => fail (ErrUnsupportedNodeType nodeType)
  end.

(** Every nested read and every iteration of the compound loop consumes at
    least one byte, so the length of the stream plus two is fuel enough
    (lemma [enough_fuel] below). *)
Definition fuel_for (r : stream) : nat := S (S (length r)).

Definition readNodeOfType (nodeType : NodeType) (isRoot : bool) : M Node :=
  fun r => readNodeOfType_fuel (fuel_for r) nodeType isRoot r.

Definition readNode : M Node :=
  let* nodeType := readRawNodeType in readNodeOfType nodeType false.

Definition ReadFromStream : M File :=
  let* rootNode := wrap ReadNbtData (readNodeOfType NodeTypeCompound true) in
  ret (mkFile rootNode).

(** The loop of [readCompoundNode] with the fuel of [fuel_for]: the loop
    reads at least one byte per iteration. *)
Definition readCompoundLoop (isRoot : bool) (Values : gmap string Node)
    : M (gmap string Node) :=
  fun r => compoundLoop readNodeOfType (S (length r)) isRoot Values r.

(** ** Big-endian representations

    The encoding side does not exist in the package; the representation of a
    value is the one written by [binary.BigEndian.PutUint16/32/64]:
    [b[0] = byte(v >> 8*(n-1))], ..., [b[n-1] = byte(v)]. *)

(** The conversion [byte(v)]: the low eight bits. *)
Definition byte_of_Z (v : Z) : byte :=
  default x00 (Byte.of_N (Z.to_N (v mod 256))).

Definition PutUint16 (v : Z) : list byte :=
  [byte_of_Z (Z.shiftr v 8); byte_of_Z v].

Definition PutUint32 (v : Z) : list byte :=
  [byte_of_Z (Z.shiftr v 24); byte_of_Z (Z.shiftr v 16);
   byte_of_Z (Z.shiftr v 8); byte_of_Z v].

Definition PutUint64 (v : Z) : list byte :=
  [byte_of_Z (Z.shiftr v 56); byte_of_Z (Z.shiftr v 48);
   byte_of_Z (Z.shiftr v 40); byte_of_Z (Z.shiftr v 32);
   byte_of_Z (Z.shiftr v 24); byte_of_Z (Z.shiftr v 16);
   byte_of_Z (Z.shiftr v 8); byte_of_Z v].

(** A scalar value of one of the six scalar kinds. *)
Inductive scalar : Type :=
| SByte (v : byte)
| SShort (v : Z)
| SInt (v : Z)
| SLong (v : Z)
| SFloat (v : float32)
| SDouble (v : float64).

(** The values of the Go types [int16], [int32], [int64], and the bit
    patterns of [float32] and [float64]. *)
Definition representable (s : scalar) : Prop :=
  match s with
  | SByte _ => True
  | SShort v => - 2 ^ 15 <= v < 2 ^ 15
  | SInt v => - 2 ^ 31 <= v < 2 ^ 31
  | SLong v => - 2 ^ 63 <= v < 2 ^ 63
  | SFloat v => 0 <= Float32bits v < 2 ^ 32
  | SDouble v => 0 <= Float64bits v < 2 ^ 64
  end.

Definition scalar_tag (s : scalar) : NodeType :=
  match s with
  | SByte _ => NodeTypeByte
  | SShort _ => NodeTypeShort
  | SInt _ => NodeTypeInt
  | SLong _ => NodeTypeLong
  | SFloat _ => NodeTypeFloat
  | SDouble _ => NodeTypeDouble
  end.

Definition scalar_bytes (s : scalar) : list byte :=
  match s with
  | SByte v => [v]
  | SShort v => PutUint16 v
  | SInt v => PutUint32 v
  | SLong v => PutUint64 v
  | SFloat v => PutUint32 (Float32bits v)
  | SDouble v => PutUint64 (Float64bits v)
  end.

Definition scalar_node (s : scalar) : Node :=
  match s with
  | SByte v => ByteNode v
  | SShort v => ShortNode v
  | SInt v => IntNode v
  | SLong v => LongNode v
  | SFloat v => FloatNode v
  | SDouble v => DoubleNode v
  end.

(** ** The entries of a Map, as the format describes them

    [entries r es r']: the stream [r] starts with the tagged, named values
    [es] (in this order) followed by the End tag, after which [r'] is left. *)
Inductive entries : stream -> list (string * Node) -> stream -> Prop :=
| entries_End r :
    entries (NodeTypeEnd :: r) [] r
| entries_child t r childName r1 childNode r2 es r3 :
    t <> NodeTypeEnd ->
    readRawString r = Ok (childName, r1) ->
    readNodeOfType t false r1 = Ok (childNode, r2) ->
    entries r2 es r3 ->
    entries (t :: r) ((childName, childNode) :: es) r3.

(** The statement [node.Values[childName] = childNode] for each entry in
    turn. *)
Definition assign_all (es : list (string * Node))
    (Values : gmap string Node) : gmap string Node :=
  fold_left (fun m kv => <[kv.1 := kv.2]> m) es Values.

(** The document of the end-to-end example: tag Map, empty name, an Int
    named "x" with value 42, End. *)
Definition document_x42 : stream :=
  [x0a; x00; x00; x03; x00; x01; "x"%byte; x00; x00; x00; x2a; x00].

(** [ReadFromStream] with an explicit amount of fuel. *)
Definition ReadFromStream_fuel (fuel : nat) : M File :=
  let* rootNode :=
    wrap ReadNbtData (readNodeOfType_fuel fuel NodeTypeCompound true) in
  ret (mkFile rootNode).

(** Whatever [m] reads successfully, it refuses with a short-read error on
    every stream that ends inside the bytes it read. *)
Definition fails_when_cut {A} (m : M A) : Prop :=
  forall r a r', m r = Ok (a, r') ->
    exists p, r = p ++ r' /\
      forall p1 p2, p = p1 ++ p2 -> p2 <> [] ->
        exists e, m p1 = Err e /\ truncated e.

(** ** Further vocabulary for the statements below *)

(** The node types that have a case in the [switch] of [readNodeOfType]. *)
Definition has_reader (t : NodeType) : bool :=
  match t with
  | x01 | x02 | x03 | x04 | x05 | x06 | x08 | x09 | x0a | x0b => true
  | _ => false
  end.

(** The buffer length of the six scalar readers ([readRawByte] and
    [readRawInt] included). *)
Definition scalar_width (t : NodeType) : option nat :=
  match t with
  | x01 => Some 1%nat
  | x02 => Some 2%nat
  | x03 => Some 4%nat
  | x04 => Some 8%nat
  | x05 => Some 4%nat
  | x06 => Some 8%nat
  | _ => None
  end.

(** [children t r cs r']: reading values of type [t] one after the other
    from [r] gives the nodes [cs], in this order, and leaves [r']. *)
Inductive children (t : NodeType) : stream -> list Node -> stream -> Prop :=
| children_nil r :
    children t r [] r
| children_cons r c r1 cs r2 :
    readNodeOfType t false r = Ok (c, r1) ->
    children t r1 cs r2 ->
    children t r (c :: cs) r2.

(** [entries_read r es r']: the stream [r] starts with the tagged, named
    values [es]; [r'] is what follows them (no End tag is read). *)
Inductive entries_read : stream -> list (string * Node) -> stream -> Prop :=
| entries_read_nil r :
    entries_read r [] r
| entries_read_cons t r childName r1 childNode r2 es r3 :
    t <> NodeTypeEnd ->
    readRawString r = Ok (childName, r1) ->
    readNodeOfType t false r1 = Ok (childNode, r2) ->
    entries_read r2 es r3 ->
    entries_read (t :: r) ((childName, childNode) :: es) r3.

(** The errors the package itself produces: a short read, or the
    "unsupported node type" of a type without case in the [switch]. *)
Definition decode_error (e : error) : Prop :=
  truncated e \/
  exists t, cause e = ErrUnsupportedNodeType t /\ has_reader t = false.

(** Every error of [m] satisfies [P]. *)
Definition errs {A} (P : error -> Prop) (m : M A) : Prop :=
  forall r e, m r = Err e -> P e.

(** A successful read of [m] consumes at least one byte. *)
Definition strict {A} (m : M A) : Prop :=
  forall r a r', m r = Ok (a, r') -> (length r' < length r)%nat.

(** ** Properties of readers used in the proofs *)

(** [m'] gives the result of [m] wherever [m] has fuel enough. *)
Definition fuel_le {A} (m m' : M A) : Prop :=
  forall r, m r <> OutOfFuel -> m' r = m r.

(** A successful read of [m] consumed a prefix [p] of the stream; it gives
    the same value whatever follows [p], and on every stream that stops
    inside [p] it fails with a short-read error. *)
Definition exact {A} (m : M A) : Prop :=
  forall r a r', m r = Ok (a, r') ->
    exists p, r = p ++ r' /\
      (forall t, m (p ++ t) = Ok (a, t)) /\
      (forall p1 p2, p = p1 ++ p2 -> p2 <> [] ->
         exists e, m p1 = Err e /\ truncated e).

Definition shrinks {A} (m : M A) : Prop :=
  forall r a r', m r = Ok (a, r') -> (length r' <= length r)%nat.

(** [m] never runs out of fuel. *)
Definition total {A} (m : M A) : Prop := forall r, m r <> OutOfFuel.

(** * Properties of the monad *)

Section MonadFacts.
Context {A B : Type}.
Implicit Types (m : M A) (k : A -> M B).

Lemma bind_Ok m k r b r' :
  bind m k r = Ok (b, r') <->
  exists a r1, m r = Ok (a, r1) /\ k a r1 = Ok (b, r').
Proof.
  unfold bind. split.
  - destruct (m r) as [[a r1]|e|p|]; try discriminate. eauto.
  - intros (a & r1 & Hm & Hk). rewrite Hm. exact Hk.
Qed.

Lemma bind_Err m k r e : m r = Err e -> bind m k r = Err e.
Proof. unfold bind. intros ->. reflexivity. Qed.

Lemma bind_step m k r a r1 : m r = Ok (a, r1) -> bind m k r = k a r1.
Proof. unfold bind. intros ->. reflexivity. Qed.

Lemma wrap_Ok c m r x : wrap c m r = Ok x <-> m r = Ok x.
Proof. unfold wrap. destruct (m r); split; congruence. Qed.

Lemma wrap_Err c m r e : m r = Err e -> wrap c m r = Err (Wrapped c e).
Proof. unfold wrap. intros ->. reflexivity. Qed.
End MonadFacts.

Lemma truncated_Wrapped c e : truncated e -> truncated (Wrapped c e).
Proof. unfold truncated. simpl. tauto. Qed.

(** ** Fuel can only be missing, never change a result *)

Section FuelLe.
Context {A B : Type}.

Lemma fuel_le_refl (m : M A) : fuel_le m m.
Proof. intros r _. reflexivity. Qed.

Lemma fuel_le_none (m : M A) : fuel_le (fun _ => OutOfFuel) m.
Proof. intros r H. congruence. Qed.

Lemma fuel_le_bind (m m' : M A) (k k' : A -> M B) :
  fuel_le m m' -> (forall a, fuel_le (k a) (k' a)) ->
  fuel_le (bind m k) (bind m' k').
Proof.
  intros Hm Hk r H. unfold bind in *.
  destruct (m r) as [[a r1]|e|p|] eqn:E.
  - rewrite (Hm r), E by congruence. apply Hk, H.
  - rewrite (Hm r), E by congruence. reflexivity.
  - rewrite (Hm r), E by congruence. reflexivity.
  - congruence.
Qed.

Lemma fuel_le_wrap c (m m' : M A) :
  fuel_le m m' -> fuel_le (wrap c m) (wrap c m').
Proof.
  intros Hm r H. unfold wrap in *.
  destruct (m r) eqn:E; rewrite (Hm r), E by congruence; congruence.
Qed.
End FuelLe.

Create HintDb fuel.
#[local] Hint Resolve fuel_le_refl fuel_le_none fuel_le_bind fuel_le_wrap
  : fuel.

Lemma fuel_le_childLoop child child' n i Values :
  fuel_le child child' ->
  fuel_le (childLoop child n i Values) (childLoop child' n i Values).
Proof.
  intros Hc. revert i Values.
  induction n as [|n IH]; intros i Values; simpl; auto with fuel.
Qed.

Lemma fuel_le_compoundLoop rec rec' :
  (forall t b, fuel_le (rec t b) (rec' t b)) ->
  forall fuel fuel' isRoot Values, (fuel <= fuel')%nat ->
    fuel_le (compoundLoop rec fuel isRoot Values)
            (compoundLoop rec' fuel' isRoot Values).
Proof.
  intros Hrec. induction fuel as [|fuel IH]; intros fuel' isRoot Values Hle.
  - apply fuel_le_none.
  - destruct fuel' as [|fuel']; [lia|]. simpl.
    apply fuel_le_bind; [apply fuel_le_refl|]. intros t.
    destruct (Byte.eqb t NodeTypeEnd); [apply fuel_le_refl|].
    apply fuel_le_bind; [apply fuel_le_refl|]. intros childName.
    apply fuel_le_bind; [apply fuel_le_wrap, Hrec|]. intros childNode.
    destruct isRoot; [apply fuel_le_refl|]. apply IH. lia.
Qed.

Lemma fuel_le_readListNode rec rec' :
  (forall t b, fuel_le (rec t b) (rec' t b)) ->
  fuel_le (readListNode rec) (readListNode rec').
Proof.
  intros Hrec. unfold readListNode.
  repeat (apply fuel_le_bind; [apply fuel_le_refl|]; intros ?).
  apply fuel_le_bind; [|intros; apply fuel_le_refl].
  apply fuel_le_childLoop, Hrec.
Qed.

Lemma fuel_le_readIntArrayNode rec rec' :
  (forall t b, fuel_le (rec t b) (rec' t b)) ->
  fuel_le (readIntArrayNode rec) (readIntArrayNode rec').
Proof.
  intros Hrec. unfold readIntArrayNode.
  repeat (apply fuel_le_bind; [apply fuel_le_refl|]; intros ?).
  apply fuel_le_bind; [|intros; apply fuel_le_refl].
  apply fuel_le_childLoop, Hrec.
Qed.

Lemma fuel_le_readCompoundNode rec rec' fuel fuel' isRoot :
  (forall t b, fuel_le (rec t b) (rec' t b)) -> (fuel <= fuel')%nat ->
  fuel_le (readCompoundNode rec fuel isRoot)
          (readCompoundNode rec' fuel' isRoot).
Proof.
  intros Hrec Hle. unfold readCompoundNode.
  apply fuel_le_bind; [|intros; apply fuel_le_refl].
  apply fuel_le_compoundLoop; assumption.
Qed.

Lemma fuel_le_readNodeOfType_fuel fuel fuel' nodeType isRoot :
  (fuel <= fuel')%nat ->
  fuel_le (readNodeOfType_fuel fuel nodeType isRoot)
          (readNodeOfType_fuel fuel' nodeType isRoot).
Proof.
  revert fuel' nodeType isRoot.
  induction fuel as [|fuel IH]; intros fuel' nodeType isRoot Hle.
  - destruct fuel'; destruct nodeType; simpl;
      first [apply fuel_le_refl | apply fuel_le_none].
  - destruct fuel' as [|fuel']; [lia|].
    assert (Hrec : forall t b, fuel_le (readNodeOfType_fuel fuel t b)
                                       (readNodeOfType_fuel fuel' t b))
      by (intros; apply IH; lia).
    destruct nodeType; simpl; try apply fuel_le_refl.
    + apply fuel_le_readListNode, Hrec.
    + apply fuel_le_readCompoundNode; [apply Hrec | lia].
    + apply fuel_le_readIntArrayNode, Hrec.
Qed.

(** ** Readers consume exactly a prefix of the stream *)

Lemma exact_shrinks {A} (m : M A) : exact m -> shrinks m.
Proof.
  intros H r a r' Hr. destruct (H _ _ _ Hr) as (p & -> & _).
  rewrite length_app. lia.
Qed.

Section Exact.
Context {A B : Type}.

Lemma exact_ret (a : A) : exact (ret a).
Proof.
  intros r a' r' [= <- <-]. exists []. split; [reflexivity|]. split.
  - reflexivity.
  - intros p1 p2 Hp Hne. destruct p1, p2; try discriminate. congruence.
Qed.

Lemma exact_fail (e : error) : exact (@fail A e).
Proof. intros r a r' H. discriminate. Qed.

Lemma exact_bind (m : M A) (k : A -> M B) :
  exact m -> (forall a, exact (k a)) -> exact (bind m k).
Proof.
  intros Hm Hk r b r' H. apply bind_Ok in H as (a & r1 & H1 & H2).
  destruct (Hm _ _ _ H1) as (p & -> & Hext & Htr).
  destruct (Hk a _ _ _ H2) as (q & -> & Hext' & Htr').
  exists (p ++ q). split; [apply app_assoc|]. split.
  - intros t. rewrite <- app_assoc.
    rewrite (bind_step _ _ _ _ _ (Hext _)). apply Hext'.
  - intros p1 p2 Heq Hne.
    apply app_eq_app in Heq as [l [[-> ->] | [-> ->]]].
    + destruct l as [|x l].
      * pose proof (Hext []) as H0. rewrite !app_nil_r in H0.
        rewrite (bind_step _ _ _ _ _ H0).
        apply (Htr' [] q); [reflexivity|assumption].
      * destruct (Htr p1 (x :: l)) as (e & He & Ht);
          [reflexivity|discriminate|].
        exists e. split; [apply bind_Err, He|assumption].
    + rewrite (bind_step _ _ _ _ _ (Hext _)).
      apply (Htr' l p2); [reflexivity|assumption].
Qed.

Lemma exact_wrap c (m : M A) : exact m -> exact (wrap c m).
Proof.
  intros Hm r a r' H. apply wrap_Ok in H.
  destruct (Hm _ _ _ H) as (p & -> & Hext & Htr).
  exists p. split; [reflexivity|]. split.
  - intros t. apply wrap_Ok, Hext.
  - intros p1 p2 Hp Hne. destruct (Htr p1 p2 Hp Hne) as (e & He & Ht).
    exists (Wrapped c e). split; [apply wrap_Err, He|].
    apply truncated_Wrapped, Ht.
Qed.
End Exact.

Lemma ReadFull_Ok n r val r' :
  ReadFull n r = Ok (val, r') <->
  r = val ++ r' /\ length val = n.
Proof.
  unfold ReadFull. split.
  - destruct (n <=? length r)%nat eqn:E;
      [|destruct (length r =? 0)%nat; discriminate].
    apply Nat.leb_le in E. intros [= <- <-].
    split; [symmetry; apply firstn_skipn|].
    rewrite length_take. lia.
  - intros [-> <-]. rewrite length_app.
    destruct (length val <=? length val + length r')%nat eqn:E;
      [|apply Nat.leb_gt in E; lia].
    rewrite take_app_length, drop_app_length. reflexivity.
Qed.

Lemma ReadFull_short n r :
  (length r < n)%nat -> exists e, ReadFull n r = Err e /\ truncated e.
Proof.
  intros H. unfold ReadFull.
  destruct (n <=? length r)%nat eqn:E; [apply Nat.leb_le in E; lia|].
  destruct (length r =? 0)%nat; eexists; (split; [reflexivity|]);
    unfold truncated; simpl; auto.
Qed.

Lemma exact_ReadFull n : exact (ReadFull n).
Proof.
  intros r val r' H. apply ReadFull_Ok in H as [-> Hn].
  exists val. split; [reflexivity|]. split.
  - intros t. apply ReadFull_Ok. auto.
  - intros p1 p2 -> Hne. apply ReadFull_short.
    rewrite <- Hn, length_app. destruct p2; [congruence|simpl; lia].
Qed.

Lemma exact_make_Nodes n : exact (make_Nodes n).
Proof.
  intros r a r'. unfold make_Nodes.
  destruct (n <? 0); [discriminate|]. intros [= <- <-].
  exists []. split; [reflexivity|]. split.
  - reflexivity.
  - intros p1 p2 Hp Hne. destruct p1, p2; try discriminate. congruence.
Qed.

Create HintDb exact.
#[local] Hint Resolve exact_ret exact_fail exact_bind exact_wrap
  exact_ReadFull exact_make_Nodes : exact.

Lemma exact_readRawByte : exact readRawByte.
Proof. unfold readRawByte. auto with exact. Qed.

Lemma exact_readRawUShort : exact readRawUShort.
Proof. unfold readRawUShort. auto with exact. Qed.

Lemma exact_readRawInt : exact readRawInt.
Proof. unfold readRawInt. auto with exact. Qed.

#[local] Hint Resolve exact_readRawByte exact_readRawUShort exact_readRawInt
  : exact.

Lemma exact_readRawString : exact readRawString.
Proof. unfold readRawString. auto 6 with exact. Qed.

Lemma exact_readRawNodeType : exact readRawNodeType.
Proof. unfold readRawNodeType. auto with exact. Qed.

#[local] Hint Resolve exact_readRawString exact_readRawNodeType : exact.

Lemma exact_childLoop child n i Values :
  exact child -> exact (childLoop child n i Values).
Proof.
  intros Hc. revert i Values.
  induction n as [|n IH]; intros i Values; simpl; auto with exact.
Qed.

Lemma exact_compoundLoop rec fuel isRoot Values :
  (forall t b, exact (rec t b)) ->
  exact (compoundLoop rec fuel isRoot Values).
Proof.
  intros Hrec. revert Values.
  induction fuel as [|fuel IH]; intros Values; simpl.
  - intros r a r' H. discriminate.
  - apply exact_bind; [auto with exact|]. intros t.
    destruct (Byte.eqb t NodeTypeEnd); [auto with exact|].
    apply exact_bind; [auto with exact|]. intros childName.
    apply exact_bind; [auto with exact|]. intros childNode.
    destruct isRoot; auto with exact.
Qed.

#[local] Hint Resolve exact_childLoop exact_compoundLoop : exact.

Lemma exact_readNodeOfType_fuel fuel nodeType isRoot :
  exact (readNodeOfType_fuel fuel nodeType isRoot).
Proof.
  revert nodeType isRoot.
  induction fuel as [|fuel IH]; intros nodeType isRoot.
  - destruct nodeType; simpl;
      first [ apply exact_fail
            | intros r a r' H; discriminate
            | unfold readByteNode, readShortNode, readIntNode, readLongNode,
                readFloatNode, readDoubleNode, readStringNode;
              auto with exact ].
  - destruct nodeType; simpl;
      first [ apply exact_fail
            | unfold readByteNode, readShortNode, readIntNode, readLongNode,
                readFloatNode, readDoubleNode, readStringNode,
                readListNode, readCompoundNode, readIntArrayNode;
              auto 8 with exact ].
Qed.

(** ** The fuel of [fuel_for] is enough *)

Section Fueled.
Context {A B : Type}.

Lemma bind_fueled (m : M A) (k : A -> M B) r :
  m r <> OutOfFuel ->
  (forall a r1, m r = Ok (a, r1) -> k a r1 <> OutOfFuel) ->
  bind m k r <> OutOfFuel.
Proof.
  unfold bind. intros Hm Hk.
  destruct (m r) as [[a r1]|e|p|]; try congruence. apply Hk. reflexivity.
Qed.

Lemma wrap_fueled c (m : M A) r :
  m r <> OutOfFuel -> wrap c m r <> OutOfFuel.
Proof. unfold wrap. destruct (m r); congruence. Qed.

Lemma bind_ext_on (m : M A) (k k' : A -> M B) r :
  (forall a r1, m r = Ok (a, r1) -> k a r1 = k' a r1) ->
  bind m k r = bind m k' r.
Proof.
  unfold bind. intros Hk. destruct (m r) as [[a r1]|e|p|]; auto.
Qed.

Lemma total_ret (a : A) : total (ret a).
Proof. intros r. discriminate. Qed.

Lemma total_fail (e : error) : total (@fail A e).
Proof. intros r. discriminate. Qed.

Lemma total_bind (m : M A) (k : A -> M B) :
  total m -> (forall a, total (k a)) -> total (bind m k).
Proof. intros Hm Hk r. apply bind_fueled; [apply Hm|]. intros. apply Hk. Qed.
End Fueled.

Lemma total_ReadFull n : total (ReadFull n).
Proof.
  intros r. unfold ReadFull.
  destruct (n <=? length r)%nat; [discriminate|].
  destruct (length r =? 0)%nat; discriminate.
Qed.

Lemma total_make_Nodes n : total (make_Nodes n).
Proof. intros r. unfold make_Nodes. destruct (n <? 0); discriminate. Qed.

Create HintDb total.
#[local] Hint Resolve total_ret total_fail total_bind total_ReadFull
  total_make_Nodes : total.

Lemma total_readRawNodeType : total readRawNodeType.
Proof. unfold readRawNodeType, readRawByte. auto with total. Qed.

Lemma total_readRawInt : total readRawInt.
Proof. unfold readRawInt. auto with total. Qed.

Lemma total_readRawString : total readRawString.
Proof. unfold readRawString, readRawUShort. auto 7 with total. Qed.

#[local] Hint Resolve total_readRawNodeType total_readRawInt
  total_readRawString : total.

Lemma readRawByte_cons b r : readRawByte (b :: r) = Ok (b, r).
Proof. reflexivity. Qed.

Lemma readRawNodeType_cons t r : readRawNodeType (t :: r) = Ok (t, r).
Proof. reflexivity. Qed.

Lemma readRawNodeType_Ok r t r' :
  readRawNodeType r = Ok (t, r') <-> r = t :: r'.
Proof.
  split; [|intros ->; reflexivity].
  destruct r as [|b r]; [discriminate|]. rewrite readRawNodeType_cons.
  intros [= -> ->]. reflexivity.
Qed.

Lemma readRawInt_Ok r n r' :
  readRawInt r = Ok (n, r') ->
  exists val, r = val ++ r' /\ length val = 4%nat /\ n = int32 (Uint32 val).
Proof.
  intros H. apply bind_Ok in H as (val & r1 & H1 & [= <- <-]).
  apply ReadFull_Ok in H1 as [-> Hlen]. eauto.
Qed.

Lemma childLoop_fueled child n i Values r :
  shrinks child ->
  (forall r', (length r' <= length r)%nat -> child r' <> OutOfFuel) ->
  childLoop child n i Values r <> OutOfFuel.
Proof.
  intros Hs. revert i Values r.
  induction n as [|n IH]; intros i Values r Hc; simpl; [discriminate|].
  apply bind_fueled; [apply wrap_fueled, Hc; lia|].
  intros a r1 H1. apply wrap_Ok, Hs in H1.
  apply IH. intros r' Hr'. apply Hc. lia.
Qed.

Lemma compoundLoop_fueled rec :
  (forall t b, shrinks (rec t b)) ->
  forall fuel isRoot Values r, (length r < fuel)%nat ->
    (forall t b r', (length r' < length r)%nat -> rec t b r' <> OutOfFuel) ->
    compoundLoop rec fuel isRoot Values r <> OutOfFuel.
Proof.
  intros Hs. induction fuel as [|fuel IH]; intros isRoot Values r Hlt Hrec;
    [lia|]. simpl.
  apply bind_fueled; [apply total_readRawNodeType|].
  intros t r1 H1. apply readRawNodeType_Ok in H1 as ->. simpl in *.
  destruct (Byte.eqb t NodeTypeEnd); [discriminate|].
  apply bind_fueled; [apply total_readRawString|].
  intros childName r2 H2.
  apply (exact_shrinks _ exact_readRawString) in H2.
  apply bind_fueled; [apply wrap_fueled, Hrec; lia|].
  intros childNode r3 H3. apply wrap_Ok, Hs in H3.
  destruct isRoot; [discriminate|].
  apply IH; [lia|]. intros t' b' r' Hr'. apply Hrec. lia.
Qed.

Lemma readNodeOfType_fuel_fueled fuel nodeType isRoot r :
  (fuel_for r <= fuel)%nat ->
  readNodeOfType_fuel fuel nodeType isRoot r <> OutOfFuel.
Proof.
  unfold fuel_for. revert nodeType isRoot r.
  induction fuel as [|fuel IH]; intros nodeType isRoot r Hle; [lia|].
  assert (Hs : forall t b, shrinks (readNodeOfType_fuel fuel t b))
    by (intros; apply exact_shrinks, exact_readNodeOfType_fuel).
  destruct nodeType; simpl;
    try (match goal with
         | |- ?m r <> OutOfFuel => enough (Ht : total m) by apply Ht
         end;
         unfold readByteNode, readShortNode, readIntNode, readLongNode,
           readFloatNode, readDoubleNode, readStringNode, readRawByte,
           readRawInt;
         solve [auto 7 with total]).
  - (* List *)
    unfold readListNode.
    apply bind_fueled; [apply total_readRawNodeType|].
    intros t r1 H1. apply readRawNodeType_Ok in H1 as ->. simpl in Hle.
    apply bind_fueled; [apply total_readRawInt|].
    intros n r2 H2. apply (exact_shrinks _ exact_readRawInt) in H2.
    apply bind_fueled; [apply total_make_Nodes|].
    intros Values r3 H3. apply (exact_shrinks _ (exact_make_Nodes _)) in H3.
    apply bind_fueled; [|discriminate].
    apply childLoop_fueled; [apply Hs|].
    intros r' Hr'. apply IH. lia.
  - (* Compound *)
    unfold readCompoundNode. apply bind_fueled; [|discriminate].
    apply compoundLoop_fueled; [apply Hs|lia|].
    intros t b r' Hr'. apply IH. lia.
  - (* IntArray *)
    unfold readIntArrayNode.
    apply bind_fueled; [apply total_readRawInt|].
    intros n r2 H2. apply readRawInt_Ok in H2 as (val & -> & H2 & _).
    rewrite length_app in Hle.
    apply bind_fueled; [apply total_make_Nodes|].
    intros Values r3 H3. apply (exact_shrinks _ (exact_make_Nodes _)) in H3.
    apply bind_fueled; [|discriminate].
    apply childLoop_fueled; [apply Hs|].
    intros r' Hr'. apply IH. lia.
Qed.

(** ** The readers as total functions of the stream *)

Lemma fuel_le_readNodeOfType fuel nodeType isRoot :
  fuel_le (readNodeOfType_fuel fuel nodeType isRoot)
          (readNodeOfType nodeType isRoot).
Proof.
  intros r H. unfold readNodeOfType.
  destruct (le_ge_dec fuel (fuel_for r)) as [Hle|Hge].
  - apply fuel_le_readNodeOfType_fuel; assumption.
  - symmetry. apply fuel_le_readNodeOfType_fuel; [lia|].
    apply readNodeOfType_fuel_fueled. lia.
Qed.

Lemma enough_fuel fuel nodeType isRoot r :
  (fuel_for r <= fuel)%nat ->
  readNodeOfType_fuel fuel nodeType isRoot r = readNodeOfType nodeType isRoot r.
Proof.
  intros H. symmetry. apply fuel_le_readNodeOfType.
  apply readNodeOfType_fuel_fueled, H.
Qed.

Lemma total_readNodeOfType nodeType isRoot :
  total (readNodeOfType nodeType isRoot).
Proof. intros r. apply readNodeOfType_fuel_fueled. lia. Qed.

Lemma exact_readNodeOfType nodeType isRoot :
  exact (readNodeOfType nodeType isRoot).
Proof.
  intros r a r' H. unfold readNodeOfType in H.
  destruct (exact_readNodeOfType_fuel _ _ _ _ _ _ H)
    as (p & -> & Hext & Htr).
  exists p. split; [reflexivity|]. split.
  - intros t. rewrite <- (Hext t).
    apply fuel_le_readNodeOfType. rewrite Hext. discriminate.
  - intros p1 p2 Hp Hne. destruct (Htr _ _ Hp Hne) as (e & He & Ht).
    exists e. split; [|assumption].
    rewrite <- He. apply fuel_le_readNodeOfType. rewrite He. discriminate.
Qed.

#[local] Hint Resolve exact_readNodeOfType : exact.
#[local] Hint Resolve total_readNodeOfType : total.

Lemma readNodeOfType_List isRoot r :
  readNodeOfType NodeTypeList isRoot r = readListNode readNodeOfType r.
Proof.
  symmetry.
  apply (fuel_le_readListNode (readNodeOfType_fuel (S (length r)))).
  - intros t b. apply fuel_le_readNodeOfType.
  - apply (readNodeOfType_fuel_fueled (fuel_for r) NodeTypeList isRoot r).
    lia.
Qed.

Lemma readNodeOfType_IntArray isRoot r :
  readNodeOfType NodeTypeIntArray isRoot r = readIntArrayNode readNodeOfType r.
Proof.
  symmetry.
  apply (fuel_le_readIntArrayNode (readNodeOfType_fuel (S (length r)))).
  - intros t b. apply fuel_le_readNodeOfType.
  - apply (readNodeOfType_fuel_fueled (fuel_for r) NodeTypeIntArray isRoot r).
    lia.
Qed.

Lemma readCompoundLoop_fueled fuel isRoot Values r :
  (length r < fuel)%nat ->
  compoundLoop readNodeOfType fuel isRoot Values r
  = readCompoundLoop isRoot Values r.
Proof.
  intros Hlt. unfold readCompoundLoop.
  apply fuel_le_compoundLoop; [intros; apply fuel_le_refl|lia|].
  apply compoundLoop_fueled; [|lia|].
  - intros t b. apply exact_shrinks, exact_readNodeOfType.
  - intros t b r' _. apply total_readNodeOfType.
Qed.

Lemma readNodeOfType_Compound isRoot r :
  readNodeOfType NodeTypeCompound isRoot r
  = (let* Values := readCompoundLoop isRoot ∅ in
     ret (CompoundNode Values)) r.
Proof.
  symmetry.
  apply (fuel_le_readCompoundNode (readNodeOfType_fuel (S (length r)))
           readNodeOfType (S (length r)) (S (length r))).
  - intros t b. apply fuel_le_readNodeOfType.
  - lia.
  - apply (readNodeOfType_fuel_fueled (fuel_for r) NodeTypeCompound isRoot r).
    lia.
Qed.

(** The loop of [readCompoundNode], one iteration unfolded. *)
Lemma readCompoundLoop_unfold isRoot Values r :
  readCompoundLoop isRoot Values r
  = (let* childNodeType := readRawNodeType in
     if Byte.eqb childNodeType NodeTypeEnd then ret Values
     else
       let* childName := readRawString in
       let* childNode :=
         wrap (ReadCompoundChild childName)
              (readNodeOfType childNodeType false) in
       if isRoot then ret (<[childName := childNode]> Values)
       else readCompoundLoop isRoot (<[childName := childNode]> Values)) r.
Proof.
  unfold readCompoundLoop at 1. simpl compoundLoop.
  apply bind_ext_on. intros t r1 H1. apply readRawNodeType_Ok in H1 as ->.
  destruct (Byte.eqb t NodeTypeEnd); [reflexivity|].
  apply bind_ext_on. intros childName r2 H2.
  apply (exact_shrinks _ exact_readRawString) in H2.
  apply bind_ext_on. intros childNode r3 H3.
  apply wrap_Ok, (exact_shrinks _ (exact_readNodeOfType _ _)) in H3.
  destruct isRoot; [reflexivity|].
  apply readCompoundLoop_fueled. simpl. lia.
Qed.

Lemma exact_readCompoundLoop isRoot Values :
  exact (readCompoundLoop isRoot Values).
Proof.
  intros r a r' H. unfold readCompoundLoop in H.
  assert (Hex : forall fuel, exact (compoundLoop readNodeOfType fuel
                                      isRoot Values))
    by (intros; apply exact_compoundLoop; auto with exact).
  destruct (Hex _ _ _ _ H) as (p & -> & Hext & Htr).
  assert (Hbig : forall s, (length s <= length (p ++ r'))%nat ->
            compoundLoop readNodeOfType (S (length (p ++ r'))) isRoot Values s
            = readCompoundLoop isRoot Values s)
    by (intros; apply readCompoundLoop_fueled; lia).
  exists p. split; [reflexivity|]. split.
  - intros t. destruct (le_ge_dec (length t) (length r')) as [Hle|Hge].
    + rewrite <- Hbig by (rewrite !length_app; lia). apply Hext.
    + unfold readCompoundLoop.
      rewrite <- (Hext t).
      apply fuel_le_compoundLoop; [intros; apply fuel_le_refl| |].
      * rewrite !length_app. lia.
      * rewrite Hext. discriminate.
  - intros p1 p2 -> Hne. rewrite <- Hbig by (rewrite !length_app; lia).
    apply (Htr p1 p2); [reflexivity|assumption].
Qed.

Lemma exact_ReadFromStream : exact ReadFromStream.
Proof. unfold ReadFromStream. auto with exact. Qed.

Lemma total_ReadFromStream : total ReadFromStream.
Proof.
  unfold ReadFromStream. apply total_bind; [|auto with total].
  intros r. apply wrap_fueled, total_readNodeOfType.
Qed.

(** * Big-endian integers *)

Lemma u8_range b : 0 <= u8 b < 256.
Proof. unfold u8. pose proof (Byte.to_N_bounded b). lia. Qed.

Lemma u8_byte_of_Z v : u8 (byte_of_Z v) = v mod 256.
Proof.
  unfold u8, byte_of_Z.
  assert (Hr : 0 <= v mod 256 < 256) by (apply Z.mod_pos_bound; lia).
  destruct (Byte.of_N (Z.to_N (v mod 256))) as [b|] eqn:E; simpl.
  - apply Byte.to_of_N in E. rewrite E. lia.
  - apply Byte.of_N_None_iff in E. lia.
Qed.

Lemma lor_shiftl_add a b k :
  0 <= k -> 0 <= a < 2 ^ k -> Z.lor a (Z.shiftl b k) = a + b * 2 ^ k.
Proof.
  intros Hk Ha. rewrite Z.shiftl_mul_pow2 by assumption.
  assert (Hd : Z.land a (b * 2 ^ k) = 0).
  { apply Z.bits_inj'. intros n Hn. rewrite Z.land_spec, Z.bits_0.
    destruct (Z.lt_ge_cases n k) as [Hlt|Hge].
    - rewrite Z.mul_pow2_bits_low by assumption. apply andb_false_r.
    - rewrite <- (Z.mod_small a (2 ^ k)) by assumption.
      rewrite Z.mod_pow2_bits_high by lia. reflexivity. }
  rewrite <- Z.lxor_lor by assumption. symmetry.
  apply Z.add_nocarry_lxor, Hd.
Qed.

(** One more byte on top of the [k] low bits already assembled. *)
Lemma lor_next_byte v k k' :
  0 <= k -> k' = k + 8 ->
  Z.lor (v mod 2 ^ k) (Z.shiftl (u8 (byte_of_Z (Z.shiftr v k))) k)
  = v mod 2 ^ k'.
Proof.
  intros Hk ->. assert (0 < 2 ^ k) by (apply Z.pow_pos_nonneg; lia).
  rewrite lor_shiftl_add; [|assumption|apply Z.mod_pos_bound; assumption].
  rewrite u8_byte_of_Z, Z.shiftr_div_pow2 by assumption.
  rewrite Z.pow_add_r by lia. change (2 ^ 8) with 256.
  rewrite Z.rem_mul_r by lia. lia.
Qed.

Lemma Uint16_PutUint16 v : Uint16 (PutUint16 v) = v mod 2 ^ 16.
Proof.
  unfold Uint16, PutUint16, at_. simpl nth.
  rewrite u8_byte_of_Z. change 256 with (2 ^ 8).
  apply lor_next_byte; lia.
Qed.

Lemma Uint32_PutUint32 v : Uint32 (PutUint32 v) = v mod 2 ^ 32.
Proof.
  unfold Uint32, PutUint32, at_. simpl nth.
  rewrite (u8_byte_of_Z v). change 256 with (2 ^ 8).
  rewrite (lor_next_byte v 8 16), (lor_next_byte v 16 24) by lia.
  apply lor_next_byte; lia.
Qed.

Lemma Uint64_PutUint64 v : Uint64 (PutUint64 v) = v mod 2 ^ 64.
Proof.
  unfold Uint64, PutUint64, at_. simpl nth.
  rewrite (u8_byte_of_Z v). change 256 with (2 ^ 8).
  rewrite (lor_next_byte v 8 16), (lor_next_byte v 16 24),
    (lor_next_byte v 24 32), (lor_next_byte v 32 40),
    (lor_next_byte v 40 48), (lor_next_byte v 48 56) by lia.
  apply lor_next_byte; lia.
Qed.

Lemma to_signed_mod w v :
  0 < w -> - 2 ^ (w - 1) <= v < 2 ^ (w - 1) ->
  to_signed w (v mod 2 ^ w) = v.
Proof.
  intros Hw Hv. unfold to_signed.
  assert (Hp : 2 ^ w = 2 * 2 ^ (w - 1))
    by (rewrite <- Z.pow_succ_r by lia; f_equal; lia).
  destruct (Z.neg_nonneg_cases v) as [Hneg|Hpos].
  - assert (Hm : v mod 2 ^ w = v + 2 ^ w).
    { symmetry. apply (Z.mod_unique_pos _ _ (-1)); lia. }
    rewrite Hm. destruct (Z.ltb_spec (v + 2 ^ w) (2 ^ (w - 1))); lia.
  - rewrite Z.mod_small by lia.
    destruct (Z.ltb_spec v (2 ^ (w - 1))); lia.
Qed.

Lemma ReadFull_app val r : ReadFull (length val) (val ++ r) = Ok (val, r).
Proof. apply ReadFull_Ok. auto. Qed.

(** * Scalars *)

Lemma readNodeOfType_scalar isRoot r :
  readNodeOfType NodeTypeByte isRoot r = readByteNode r /\
  readNodeOfType NodeTypeShort isRoot r = readShortNode r /\
  readNodeOfType NodeTypeInt isRoot r = readIntNode r /\
  readNodeOfType NodeTypeLong isRoot r = readLongNode r /\
  readNodeOfType NodeTypeFloat isRoot r = readFloatNode r /\
  readNodeOfType NodeTypeDouble isRoot r = readDoubleNode r /\
  readNodeOfType NodeTypeString isRoot r = readStringNode r.
Proof. repeat split. Qed.

Lemma readShortNode_PutUint16 v r :
  - 2 ^ 15 <= v < 2 ^ 15 ->
  readShortNode (PutUint16 v ++ r) = Ok (ShortNode v, r).
Proof.
  intros Hv. unfold readShortNode.
  rewrite (bind_step _ _ _ _ _ (ReadFull_app (PutUint16 v) r)).
  unfold ret, int16. rewrite Uint16_PutUint16, to_signed_mod by lia.
  reflexivity.
Qed.

Lemma readRawInt_PutUint32 v r :
  - 2 ^ 31 <= v < 2 ^ 31 -> readRawInt (PutUint32 v ++ r) = Ok (v, r).
Proof.
  intros Hv. unfold readRawInt.
  rewrite (bind_step _ _ _ _ _ (ReadFull_app (PutUint32 v) r)).
  unfold ret, int32. rewrite Uint32_PutUint32, to_signed_mod by lia.
  reflexivity.
Qed.

Lemma readIntNode_PutUint32 v r :
  - 2 ^ 31 <= v < 2 ^ 31 ->
  readIntNode (PutUint32 v ++ r) = Ok (IntNode v, r).
Proof.
  intros Hv. unfold readIntNode.
  rewrite (bind_step _ _ _ _ _ (readRawInt_PutUint32 v r Hv)). reflexivity.
Qed.

Lemma readLongNode_PutUint64 v r :
  - 2 ^ 63 <= v < 2 ^ 63 ->
  readLongNode (PutUint64 v ++ r) = Ok (LongNode v, r).
Proof.
  intros Hv. unfold readLongNode.
  rewrite (bind_step _ _ _ _ _ (ReadFull_app (PutUint64 v) r)).
  unfold ret, int64. rewrite Uint64_PutUint64, to_signed_mod by lia.
  reflexivity.
Qed.

Lemma readFloatNode_PutUint32 v r :
  0 <= Float32bits v < 2 ^ 32 ->
  readFloatNode (PutUint32 (Float32bits v) ++ r) = Ok (FloatNode v, r).
Proof.
  intros Hv. unfold readFloatNode.
  rewrite (bind_step _ _ _ _ _ (ReadFull_app (PutUint32 _) r)).
  unfold ret. rewrite Uint32_PutUint32, Z.mod_small by assumption.
  destruct v. reflexivity.
Qed.

Lemma readDoubleNode_PutUint64 v r :
  0 <= Float64bits v < 2 ^ 64 ->
  readDoubleNode (PutUint64 (Float64bits v) ++ r) = Ok (DoubleNode v, r).
Proof.
  intros Hv. unfold readDoubleNode.
  rewrite (bind_step _ _ _ _ _ (ReadFull_app (PutUint64 _) r)).
  unfold ret. rewrite Uint64_PutUint64, Z.mod_small by assumption.
  destruct v. reflexivity.
Qed.

(** C5.  For each of the six scalar kinds and every value [v] of that kind
    (a byte, a signed integer of 16, 32 or 64 bits, a [float32] or [float64]
    given by its bit pattern), reading a node of that kind from the
    big-endian representation of [v] returns exactly the node holding [v],
    and leaves what follows the representation unread. *)
Theorem scalar_roundtrip (s : scalar) (r : stream) :
  representable s ->
  readNodeOfType (scalar_tag s) false (scalar_bytes s ++ r)
  = Ok (scalar_node s, r).
Proof.
  destruct s as [v|v|v|v|v|v]; simpl; intros Hv.
  - reflexivity.
  - apply (readShortNode_PutUint16 v r Hv).
  - apply (readIntNode_PutUint32 v r Hv).
  - apply (readLongNode_PutUint64 v r Hv).
  - apply (readFloatNode_PutUint32 v r Hv).
  - apply (readDoubleNode_PutUint64 v r Hv).
Qed.

(** The smallest [int32], read back from its four bytes. *)
Lemma scalar_roundtrip_witness :
  readNodeOfType NodeTypeInt false [x80; x00; x00; x00; xff]
  = Ok (IntNode (- 2147483648), [xff]).
Proof.
  apply (scalar_roundtrip (SInt (- 2147483648)) [xff]). simpl. lia.
Defined.

(** The boundary values of the claim, evaluated. *)
Example scalar_boundaries :
  readNodeOfType NodeTypeShort false [x80; x00] = Ok (ShortNode (-32768), [])
  /\ readNodeOfType NodeTypeShort false [x7f; xff] = Ok (ShortNode 32767, [])
  /\ readNodeOfType NodeTypeInt false [x7f; xff; xff; xff]
     = Ok (IntNode 2147483647, [])
  /\ readNodeOfType NodeTypeLong false
       [x80; x00; x00; x00; x00; x00; x00; x00]
     = Ok (LongNode (-9223372036854775808), [])
  /\ readNodeOfType NodeTypeLong false
       [x7f; xff; xff; xff; xff; xff; xff; xff]
     = Ok (LongNode 9223372036854775807, [])
  /\ readNodeOfType NodeTypeFloat false [x00; x00; x00; x00]
     = Ok (FloatNode (Float32frombits 0), [])
  /\ readNodeOfType NodeTypeFloat false [x80; x00; x00; x00]
     = Ok (FloatNode (Float32frombits 0x80000000), [])
  /\ readNodeOfType NodeTypeFloat false [x7f; xc0; x00; x00]
     = Ok (FloatNode (Float32frombits 0x7fc00000), [])
  /\ readNodeOfType NodeTypeDouble false
       [x7f; xf8; x00; x00; x00; x00; x00; x01]
     = Ok (DoubleNode (Float64frombits 0x7ff8000000000001), []).
Proof. repeat split. Qed.

(** * Lists and integer arrays *)

Lemma readRawInt_app val r :
  length val = 4%nat -> readRawInt (val ++ r) = Ok (int32 (Uint32 val), r).
Proof.
  intros Hlen. unfold readRawInt.
  assert (H : ReadFull 4 (val ++ r) = Ok (val, r)) by (apply ReadFull_Ok; auto).
  rewrite (bind_step _ _ _ _ _ H). reflexivity.
Qed.

Lemma childLoop_Ok child n i Values r Values' r' :
  childLoop child n i Values r = Ok (Values', r') ->
  exists cs, Values' = Values ++ map Some cs /\ length cs = n.
Proof.
  revert i Values r. induction n as [|n IH]; intros i Values r H; simpl in H.
  - injection H as <- <-. exists []. split; [|reflexivity].
    symmetry. apply app_nil_r.
  - apply bind_Ok in H as (c & r1 & _ & H).
    apply IH in H as (cs & -> & Hlen).
    exists (c :: cs). split; [|simpl; lia].
    rewrite <- app_assoc. reflexivity.
Qed.

(** What a successful [make] followed by the append loop has built: the
    [childCount] nil values of [make], then the children that were read. *)
Lemma presized_then_appended child childCount r Values r' :
  (let* Values := make_Nodes childCount in
   childLoop child (Z.to_nat childCount) 0 Values) r = Ok (Values, r') ->
  0 <= childCount /\
  exists cs, Values = repeat None (Z.to_nat childCount) ++ map Some cs /\
             length cs = Z.to_nat childCount.
Proof.
  intros H. apply bind_Ok in H as (V0 & r1 & Hm & H).
  unfold make_Nodes in Hm.
  destruct (Z.ltb_spec childCount 0) as [Hneg|Hpos]; [discriminate|].
  injection Hm as <- <-. split; [assumption|].
  apply childLoop_Ok in H. exact H.
Qed.

(** Every successful read of a List returns twice the declared count. *)
Lemma readListNode_Ok isRoot r node r' :
  readNodeOfType NodeTypeList isRoot r = Ok (node, r') ->
  exists t val r1 cs,
    r = t :: val ++ r1 /\ length val = 4%nat /\
    0 <= int32 (Uint32 val) /\
    length cs = Z.to_nat (int32 (Uint32 val)) /\
    node = ListNode (repeat None (Z.to_nat (int32 (Uint32 val)))
                     ++ map Some cs).
Proof.
  rewrite readNodeOfType_List. unfold readListNode. intros H.
  apply bind_Ok in H as (t & r0 & Ht & H).
  apply readRawNodeType_Ok in Ht as ->.
  apply bind_Ok in H as (n & r1 & Hn & H).
  apply readRawInt_Ok in Hn as (val & -> & Hlen & ->).
  apply bind_Ok in H as (V0 & r2 & Hm & H).
  apply bind_Ok in H as (V & r3 & Hl & [= <- <-]).
  destruct (presized_then_appended (readNodeOfType t false)
              (int32 (Uint32 val)) r1 V r3) as (Hpos & cs & -> & Hcs).
  { unfold bind at 1. rewrite Hm. exact Hl. }
  exists t, val, r1, cs. auto.
Qed.

Lemma readListNode_length isRoot r Values r' :
  readNodeOfType NodeTypeList isRoot r = Ok (ListNode Values, r') ->
  exists t val r1,
    r = t :: val ++ r1 /\ length val = 4%nat /\
    length Values = (2 * Z.to_nat (int32 (Uint32 val)))%nat.
Proof.
  intros H.
  apply readListNode_Ok in H as (t & val & r1 & cs & -> & Hlen & _ & Hcs & E).
  injection E as ->. exists t, val, r1. repeat split; [assumption|].
  rewrite length_app, repeat_length, length_map. lia.
Qed.

Lemma readIntArrayNode_length isRoot r Values r' :
  readNodeOfType NodeTypeIntArray isRoot r = Ok (IntArrayNode Values, r') ->
  exists val r1,
    r = val ++ r1 /\ length val = 4%nat /\
    length Values = (2 * Z.to_nat (int32 (Uint32 val)))%nat.
Proof.
  rewrite readNodeOfType_IntArray. unfold readIntArrayNode. intros H.
  apply bind_Ok in H as (n & r1 & Hn & H).
  apply readRawInt_Ok in Hn as (val & -> & Hlen & ->).
  apply bind_Ok in H as (V0 & r2 & Hm & H).
  apply bind_Ok in H as (V & r3 & Hl & [= <- <-]).
  destruct (presized_then_appended (readNodeOfType NodeTypeInt false)
              (int32 (Uint32 val)) r1 V r3) as (Hpos & cs & -> & Hcs).
  { unfold bind at 1. rewrite Hm. exact Hl. }
  exists val, r1. repeat split; [assumption|].
  rewrite length_app, repeat_length, length_map. lia.
Qed.

(** C1.  A List with declared count 2 and an IntArray with declared count 1
    decode to four, respectively two, elements: the nil values of the
    pre-sized slice come first and the decoded children are appended after
    them.  The count-many elements the claim asks for are not what the code
    returns ([readListNode_length] and [readIntArrayNode_length] give the
    doubled length for every count). *)
Theorem list_and_array_doubled :
  readNodeOfType NodeTypeList false [x01; x00; x00; x00; x02; x07; x08]
  = Ok (ListNode [None; None; Some (ByteNode x07); Some (ByteNode x08)], [])
  /\ readNodeOfType NodeTypeIntArray false
       [x00; x00; x00; x01; x00; x00; x00; x2a]
     = Ok (IntArrayNode [None; Some (IntNode 42)], []).
Proof. split; reflexivity. Qed.

Lemma readListNode_negative isRoot t val r :
  length val = 4%nat -> int32 (Uint32 val) < 0 ->
  readNodeOfType NodeTypeList isRoot (t :: val ++ r)
  = Panic MakesliceLenOutOfRange.
Proof.
  intros Hlen Hneg. rewrite readNodeOfType_List. unfold readListNode.
  rewrite (bind_step _ _ _ _ _ (readRawNodeType_cons t _)).
  rewrite (bind_step _ _ _ _ _ (readRawInt_app val r Hlen)).
  unfold bind, make_Nodes.
  destruct (Z.ltb_spec (int32 (Uint32 val)) 0); [reflexivity|lia].
Qed.

Lemma readListNode_zero isRoot t val r :
  length val = 4%nat -> int32 (Uint32 val) = 0 ->
  readNodeOfType NodeTypeList isRoot (t :: val ++ r) = Ok (ListNode [], r).
Proof.
  intros Hlen Hz. rewrite readNodeOfType_List. unfold readListNode.
  rewrite (bind_step _ _ _ _ _ (readRawNodeType_cons t _)).
  rewrite (bind_step _ _ _ _ _ (readRawInt_app val r Hlen)).
  rewrite Hz. reflexivity.
Qed.

(** C7.  A List whose declared count is -1 does not decode to an empty
    sequence: [make([]Node, childCount)] panics before the loop is reached
    ([readListNode_negative] shows it for every negative count;
    [readListNode_zero] is the zero count, which does give the empty
    sequence). *)
Theorem list_negative_count_panics :
  readNodeOfType NodeTypeList false [x01; xff; xff; xff; xff]
  = Panic MakesliceLenOutOfRange.
Proof. reflexivity. Qed.

(** * Dispatch on the node type *)

(** C8.  For the two kinds that are declared without a reader (ByteArray,
    LongArray) and for every tag byte above the last declared kind, reading
    a value of that kind fails with "unsupported node type", on any stream:
    no byte is read and no node is returned. *)
Theorem unsupported_node_type (t : NodeType) (isRoot : bool) (r : stream) :
  t = NodeTypeByteArray \/ t = NodeTypeLongArray \/ 12 < u8 t ->
  readNodeOfType t isRoot r = Err (ErrUnsupportedNodeType t).
Proof.
  intros H. destruct t; try reflexivity; exfalso;
    destruct H as [H|[H|H]]; try discriminate H;
    vm_compute in H; discriminate H.
Qed.

Lemma unsupported_node_type_witness :
  readNodeOfType NodeTypeByteArray false [x00; x00; x00; x01; x05]
  = Err (ErrUnsupportedNodeType NodeTypeByteArray).
Proof. apply unsupported_node_type. left. reflexivity. Defined.

(** The wire tag a node was read with is its [Type()], except for strings. *)
Lemma Type_of_read t isRoot r node r' :
  readNodeOfType t isRoot r = Ok (node, r') ->
  Type_ node = if Byte.eqb t NodeTypeString then NodeTypeInt else t.
Proof.
  intros H.
  assert (Hret : forall A (m : M A) (f : A -> Node) s,
             bind m (fun a => ret (f a)) s = Ok (node, r') ->
             exists a, node = f a).
  { intros A m f s Hb. apply bind_Ok in Hb as (a & s1 & _ & [= <- _]).
    eauto. }
  destruct t; try discriminate H; simpl.
  - apply Hret in H as [a ->]. reflexivity.
  - apply Hret in H as [a ->]. reflexivity.
  - apply Hret in H as [a ->]. reflexivity.
  - apply Hret in H as [a ->]. reflexivity.
  - apply Hret in H as [a ->]. reflexivity.
  - apply Hret in H as [a ->]. reflexivity.
  - apply Hret in H as [a ->]. reflexivity.
  - apply readListNode_Ok in H as (? & ? & ? & ? & _ & _ & _ & _ & ->).
    reflexivity.
  - rewrite readNodeOfType_Compound in H.
    apply Hret in H as [a ->]. reflexivity.
  - rewrite readNodeOfType_IntArray in H. unfold readIntArrayNode in H.
    apply bind_Ok in H as (? & ? & _ & H).
    apply bind_Ok in H as (? & ? & _ & H).
    apply Hret in H as [a ->]. reflexivity.
Qed.

(** C9.  A String node, here the one decoded from the wire tag 8 and the
    bytes of "a", reports the Int kind (3) as its [Type()], not its own wire
    tag.  Every other variant reports the tag it was read with
    ([Type_of_read]). *)
Theorem StringNode_reports_Int :
  readNodeOfType NodeTypeString false [x00; x01; "a"%byte]
  = Ok (StringNode "a", [])
  /\ Type_ (StringNode "a") = NodeTypeInt
  /\ Type_ (StringNode "a") <> NodeTypeString.
Proof. repeat split. discriminate. Qed.

(** * Maps *)

Lemma eqb_End_false t : t <> NodeTypeEnd -> Byte.eqb t NodeTypeEnd = false.
Proof.
  intros Hne. destruct (Byte.eqb t NodeTypeEnd) eqn:E; [|reflexivity].
  apply Byte.byte_dec_bl in E. contradiction.
Qed.

Lemma readCompoundLoop_nil isRoot Values :
  readCompoundLoop isRoot Values [] = Err EOF.
Proof. reflexivity. Qed.

Lemma readCompoundLoop_End isRoot Values r :
  readCompoundLoop isRoot Values (NodeTypeEnd :: r) = Ok (Values, r).
Proof. rewrite readCompoundLoop_unfold. reflexivity. Qed.

Section OneEntry.
Variables (t : NodeType) (r : stream) (childName : string) (r1 : stream).
Hypothesis Ht : t <> NodeTypeEnd.
Hypothesis Hname : readRawString r = Ok (childName, r1).

Lemma readCompoundLoop_child isRoot Values childNode r2 :
  readNodeOfType t false r1 = Ok (childNode, r2) ->
  readCompoundLoop isRoot Values (t :: r)
  = if isRoot then Ok (<[childName := childNode]> Values, r2)
    else readCompoundLoop false (<[childName := childNode]> Values) r2.
Proof.
  intros Hnode. rewrite readCompoundLoop_unfold.
  rewrite (bind_step _ _ _ _ _ (readRawNodeType_cons t r)).
  rewrite (eqb_End_false t Ht).
  rewrite (bind_step _ _ _ _ _ Hname).
  assert (Hw : wrap (ReadCompoundChild childName) (readNodeOfType t false)
                 r1 = Ok (childNode, r2)) by (apply wrap_Ok, Hnode).
  rewrite (bind_step _ _ _ _ _ Hw). destruct isRoot; reflexivity.
Qed.

Lemma readCompoundLoop_child_Err isRoot Values e :
  readNodeOfType t false r1 = Err e ->
  readCompoundLoop isRoot Values (t :: r)
  = Err (Wrapped (ReadCompoundChild childName) e).
Proof.
  intros Hnode. rewrite readCompoundLoop_unfold.
  rewrite (bind_step _ _ _ _ _ (readRawNodeType_cons t r)).
  rewrite (eqb_End_false t Ht).
  rewrite (bind_step _ _ _ _ _ Hname).
  apply bind_Err, wrap_Err, Hnode.
Qed.
End OneEntry.

Lemma readCompoundLoop_entries r es r' :
  entries r es r' ->
  forall Values,
    readCompoundLoop false Values r = Ok (assign_all es Values, r').
Proof.
  induction 1 as [r|t r childName r1 childNode r2 es r3 Ht Hname Hnode _ IH];
    intros Values.
  - apply readCompoundLoop_End.
  - rewrite (readCompoundLoop_child t r childName r1 Ht Hname false Values
               childNode r2 Hnode).
    apply IH.
Qed.

Lemma compoundLoop_Ok_entries fuel :
  forall Values r Values' r',
    compoundLoop readNodeOfType fuel false Values r = Ok (Values', r') ->
    exists es, entries r es r' /\ Values' = assign_all es Values.
Proof.
  induction fuel as [|fuel IH]; intros Values r Values' r' H; simpl in H;
    [discriminate|].
  apply bind_Ok in H as (t & r0 & Ht & H).
  apply readRawNodeType_Ok in Ht as ->.
  destruct (Byte.eqb t NodeTypeEnd) eqn:E.
  - apply Byte.byte_dec_bl in E as ->. injection H as <- <-.
    exists []. split; [constructor|reflexivity].
  - apply Byte.eqb_false in E.
    apply bind_Ok in H as (childName & r1 & Hname & H).
    apply bind_Ok in H as (childNode & r2 & Hnode & H).
    apply wrap_Ok in Hnode.
    apply IH in H as (es & Hes & ->).
    exists ((childName, childNode) :: es). split; [|reflexivity].
    econstructor; eassumption.
Qed.

(** Assigning the entries in reading order is [list_to_map] of the entries
    in reverse order, where the first binding of a key is the one kept. *)
Lemma assign_all_list_to_map es :
  assign_all es ∅ = list_to_map (reverse es).
Proof.
  induction es as [|[k v] es IH] using rev_ind; [reflexivity|].
  unfold assign_all in *. rewrite fold_left_app, reverse_snoc. simpl.
  rewrite IH. reflexivity.
Qed.

Lemma later_entry_wins (es1 es2 : list (string * Node)) k v :
  k ∉ es2.*1 ->
  (list_to_map (reverse (es1 ++ (k, v) :: es2)) : gmap string Node) !! k
  = Some v.
Proof.
  intros Hk. rewrite reverse_app, reverse_cons, <- app_assoc.
  rewrite list_to_map_app. apply lookup_union_Some_raw. right. split.
  - apply not_elem_of_list_to_map_1. rewrite fmap_reverse, elem_of_reverse.
    exact Hk.
  - simpl. apply lookup_insert_eq.
Qed.

Lemma readCompound_entries r node r' :
  readNodeOfType NodeTypeCompound false r = Ok (node, r') <->
  exists es, entries r es r' /\
             node = CompoundNode (list_to_map (reverse es)).
Proof.
  rewrite readNodeOfType_Compound. split.
  - intros H. apply bind_Ok in H as (Values & r1 & H & [= <- <-]).
    apply compoundLoop_Ok_entries in H as (es & Hes & ->).
    exists es. split; [assumption|]. f_equal. apply assign_all_list_to_map.
  - intros (es & Hes & ->).
    rewrite (bind_step _ _ _ _ _ (readCompoundLoop_entries _ _ _ Hes ∅)).
    unfold ret. rewrite assign_all_list_to_map. reflexivity.
Qed.

Lemma readRoot_End r :
  readNodeOfType NodeTypeCompound true (NodeTypeEnd :: r)
  = Ok (CompoundNode ∅, r).
Proof.
  rewrite readNodeOfType_Compound.
  rewrite (bind_step _ _ _ _ _ (readCompoundLoop_End true ∅ r)).
  reflexivity.
Qed.

Lemma readRoot_child t r childName r1 childNode r2 :
  t <> NodeTypeEnd ->
  readRawString r = Ok (childName, r1) ->
  readNodeOfType t false r1 = Ok (childNode, r2) ->
  readNodeOfType NodeTypeCompound true (t :: r)
  = Ok (CompoundNode {[childName := childNode]}, r2).
Proof.
  intros Ht Hname Hnode. rewrite readNodeOfType_Compound.
  rewrite (bind_step _ _ _ _ _
             (readCompoundLoop_child t r childName r1 Ht Hname true ∅
                childNode r2 Hnode)).
  reflexivity.
Qed.

Lemma readRoot_child_Err t r childName r1 e :
  t <> NodeTypeEnd ->
  readRawString r = Ok (childName, r1) ->
  readNodeOfType t false r1 = Err e ->
  readNodeOfType NodeTypeCompound true (t :: r)
  = Err (Wrapped (ReadCompoundChild childName) e).
Proof.
  intros Ht Hname Hnode. rewrite readNodeOfType_Compound.
  apply bind_Err.
  apply (readCompoundLoop_child_Err t r childName r1 Ht Hname true ∅ e Hnode).
Qed.

(** C3, as the code has it.  A Map that is not the document root is read
    entry by entry until the End tag: a Map whose first tag is End is empty;
    a successful read is exactly a read of a sequence of entries closed by
    End, each entry assigned to its key in reading order, so that of two
    entries with one key the later one is kept.  The document root is read
    differently: its loop stops after its first entry (or at End). *)
Theorem compound_entries :
  (forall isRoot r,
     readNodeOfType NodeTypeCompound isRoot (NodeTypeEnd :: r)
     = Ok (CompoundNode ∅, r))
  /\ (forall r node r',
        readNodeOfType NodeTypeCompound false r = Ok (node, r') <->
        exists es, entries r es r' /\
                   node = CompoundNode (list_to_map (reverse es)))
  /\ (forall (es1 es2 : list (string * Node)) k v,
        k ∉ es2.*1 ->
        (list_to_map (reverse (es1 ++ (k, v) :: es2)) : gmap string Node)
          !! k = Some v)
  /\ (forall t r childName r1 childNode r2,
        t <> NodeTypeEnd ->
        readRawString r = Ok (childName, r1) ->
        readNodeOfType t false r1 = Ok (childNode, r2) ->
        readNodeOfType NodeTypeCompound true (t :: r)
        = Ok (CompoundNode {[childName := childNode]}, r2)).
Proof.
  split; [|split; [|split]].
  - intros [] r; [apply readRoot_End|].
    apply readCompound_entries. exists []. split; [constructor|reflexivity].
  - apply readCompound_entries.
  - apply later_entry_wins.
  - apply readRoot_child.
Qed.

(** A nested Map with the key "k" twice keeps the byte 6 that came later. *)
Lemma compound_entries_witness :
  readNodeOfType NodeTypeCompound false
    [x01; x00; x01; "k"%byte; x05; x01; x00; x01; "k"%byte; x06; x00; xff]
  = Ok (CompoundNode {["k" := ByteNode x06]}, [xff]).
Proof.
  apply (proj1 (proj2 compound_entries)).
  exists [("k", ByteNode x05); ("k", ByteNode x06)]. split.
  - eapply (entries_child NodeTypeByte);
      [discriminate|reflexivity|reflexivity|].
    eapply (entries_child NodeTypeByte);
      [discriminate|reflexivity|reflexivity|].
    apply entries_End.
  - reflexivity.
Defined.

(** The root with the same two entries: the loop stops after the first one,
    with neither an End tag nor an error, and the later value for "k" is
    neither read nor kept. *)
Lemma root_stops_after_first_entry :
  ReadFromStream
    [x01; x00; x01; "k"%byte; x05; x01; x00; x01; "k"%byte; x06; x00]
  = Ok (mkFile (CompoundNode {["k" := ByteNode x05]}),
        [x01; x00; x01; "k"%byte; x06; x00]).
Proof. reflexivity. Qed.

(** * The entry point *)

Lemma ReadFromStream_Ok r root r' :
  readNodeOfType NodeTypeCompound true r = Ok (root, r') ->
  ReadFromStream r = Ok (mkFile root, r').
Proof.
  intros H. unfold ReadFromStream.
  assert (Hw : wrap ReadNbtData (readNodeOfType NodeTypeCompound true) r
               = Ok (root, r')) by (apply wrap_Ok, H).
  rewrite (bind_step _ _ _ _ _ Hw). reflexivity.
Qed.

Lemma ReadFromStream_Err r e :
  readNodeOfType NodeTypeCompound true r = Err e ->
  ReadFromStream r = Err (Wrapped ReadNbtData e).
Proof. intros H. apply bind_Err, wrap_Err, H. Qed.

(** C2, as the code has it.  The entry point reads one tag byte and does not
    require it to be Map.  On the End tag it succeeds with an empty root;
    on any other tag it reads a name and then one value of the kind named
    by the tag: if that read succeeds the result is a root Map with exactly
    this entry, and if it fails the error is returned with the name of the
    entry and "read nbt data" as context. *)
Theorem ReadFromStream_first_tag (t : NodeType) (r : stream) :
  (t = NodeTypeEnd ->
   ReadFromStream (t :: r) = Ok (mkFile (CompoundNode ∅), r))
  /\ (forall childName r1,
        t <> NodeTypeEnd ->
        readRawString r = Ok (childName, r1) ->
        (forall childNode r2,
           readNodeOfType t false r1 = Ok (childNode, r2) ->
           ReadFromStream (t :: r)
           = Ok (mkFile (CompoundNode {[childName := childNode]}), r2))
        /\ (forall e,
              readNodeOfType t false r1 = Err e ->
              ReadFromStream (t :: r)
              = Err (Wrapped ReadNbtData
                       (Wrapped (ReadCompoundChild childName) e)))).
Proof.
  split.
  - intros ->. apply ReadFromStream_Ok, readRoot_End.
  - intros childName r1 Ht Hname. split.
    + intros childNode r2 Hnode.
      apply ReadFromStream_Ok, (readRoot_child t r childName r1); assumption.
    + intros e Hnode.
      apply ReadFromStream_Err, (readRoot_child_Err t r childName r1);
        assumption.
Qed.

(** A document whose first tag is Int. *)
Lemma ReadFromStream_first_tag_witness :
  ReadFromStream [x03; x00; x00; x00; x00; x00; x2a]
  = Ok (mkFile (CompoundNode {["" := IntNode 42]}), []).
Proof.
  apply (proj2 (ReadFromStream_first_tag NodeTypeInt
                  [x00; x00; x00; x00; x00; x2a])
           ""%string [x00; x00; x00; x2a]);
    [discriminate|reflexivity|reflexivity].
Defined.

(** The first tag byte of this document is Int, not Map, and decoding it
    succeeds. *)
Lemma root_tag_not_required :
  hd_error [x03; x00; x00; x00; x00; x00; x2a] = Some NodeTypeInt
  /\ NodeTypeInt <> NodeTypeCompound
  /\ ReadFromStream [x03; x00; x00; x00; x00; x00; x2a]
     = Ok (mkFile (CompoundNode {["" := IntNode 42]}), []).
Proof. repeat split. discriminate. Qed.

(** C4, as the code has it.  The root Map of the example document has
    exactly one key, the empty name of the top-level tag; it maps to a Map
    node whose only key is "x", which maps to the Int node 42. *)
Theorem document_x42_decoded :
  ReadFromStream document_x42
  = Ok (mkFile (CompoundNode {["" := CompoundNode {["x" := IntNode 42]}]}),
        []).
Proof. reflexivity. Qed.

(** The root Map of the example document has no key "x". *)
Lemma document_x42_root_has_no_x :
  exists Values,
    ReadFromStream document_x42 = Ok (mkFile (CompoundNode Values), [])
    /\ Values !! "x" = None.
Proof. eexists. split; reflexivity. Qed.

(** * Truncated streams *)

Lemma exact_fails_when_cut {A} (m : M A) : exact m -> fails_when_cut m.
Proof.
  intros Hm r a r' H. destruct (Hm r a r' H) as (p & Hp & _ & Htr).
  exists p. auto.
Qed.

Lemma exact_readNode : exact readNode.
Proof. unfold readNode. auto with exact. Qed.



(** * Determinism *)

Lemma ReadFromStream_fuel_enough fuel r :
  (fuel_for r <= fuel)%nat -> ReadFromStream_fuel fuel r = ReadFromStream r.
Proof.
  intros H. unfold ReadFromStream_fuel, ReadFromStream, bind, wrap.
  rewrite (enough_fuel fuel NodeTypeCompound true r H). reflexivity.
Qed.



(** * Further properties of the readers *)

(** ** Bytes of integers *)

Lemma byte_of_Z_eq v b : v mod 256 = u8 b -> byte_of_Z v = b.
Proof.
  intros H. unfold byte_of_Z. rewrite H. unfold u8.
  rewrite N2Z.id, Byte.of_to_N. reflexivity.
Qed.

Lemma to_signed_cases w U :
  to_signed w U = U \/ to_signed w U = U - 2 ^ w.
Proof. unfold to_signed. destruct (U <? 2 ^ (w - 1)); auto. Qed.

Lemma to_signed_range w U :
  0 < w -> 0 <= U < 2 ^ w ->
  - 2 ^ (w - 1) <= to_signed w U < 2 ^ (w - 1).
Proof.
  intros Hw HU. unfold to_signed.
  assert (Hp : 2 ^ w = 2 * 2 ^ (w - 1))
    by (rewrite <- Z.pow_succ_r by lia; f_equal; lia).
  destruct (Z.ltb_spec U (2 ^ (w - 1))); lia.
Qed.

Lemma Uint16_sum b0 b1 : Uint16 [b0; b1] = u8 b1 + u8 b0 * 2 ^ 8.
Proof.
  unfold Uint16, at_. simpl nth. pose proof (u8_range b1).
  apply lor_shiftl_add; lia.
Qed.

Lemma Uint32_sum b0 b1 b2 b3 :
  Uint32 [b0; b1; b2; b3]
  = u8 b3 + u8 b2 * 2 ^ 8 + u8 b1 * 2 ^ 16 + u8 b0 * 2 ^ 24.
Proof.
  unfold Uint32, at_. simpl nth.
  pose proof (u8_range b0). pose proof (u8_range b1).
  pose proof (u8_range b2). pose proof (u8_range b3).
  rewrite (lor_shiftl_add (u8 b3)) by lia.
  rewrite (lor_shiftl_add (_ + _)) by lia.
  rewrite (lor_shiftl_add (_ + _)) by lia.
  reflexivity.
Qed.

Lemma Uint64_sum b0 b1 b2 b3 b4 b5 b6 b7 :
  Uint64 [b0; b1; b2; b3; b4; b5; b6; b7]
  = u8 b7 + u8 b6 * 2 ^ 8 + u8 b5 * 2 ^ 16 + u8 b4 * 2 ^ 24
    + u8 b3 * 2 ^ 32 + u8 b2 * 2 ^ 40 + u8 b1 * 2 ^ 48 + u8 b0 * 2 ^ 56.
Proof.
  unfold Uint64, at_. simpl nth.
  pose proof (u8_range b0). pose proof (u8_range b1).
  pose proof (u8_range b2). pose proof (u8_range b3).
  pose proof (u8_range b4). pose proof (u8_range b5).
  pose proof (u8_range b6). pose proof (u8_range b7).
  rewrite (lor_shiftl_add (u8 b7)) by lia.
  do 6 (rewrite (lor_shiftl_add (_ + _)) by lia).
  reflexivity.
Qed.

Lemma to_signed_unsigned w U :
  0 < w -> 0 <= U < 2 ^ w -> to_signed w U mod 2 ^ w = U.
Proof.
  intros Hw HU. destruct (to_signed_cases w U) as [-> | ->].
  - apply Z.mod_small, HU.
  - symmetry. apply (Z.mod_unique_pos _ _ (-1)); lia.
Qed.

Ltac byte_of_sum :=
  apply byte_of_Z_eq; rewrite ?Z.shiftr_div_pow2 by lia;
  Z.div_mod_to_equations; lia.

Lemma PutUint16_of v b0 b1 :
  v mod 2 ^ 16 = Uint16 [b0; b1] -> PutUint16 v = [b0; b1].
Proof.
  rewrite Uint16_sum. intros H.
  pose proof (u8_range b0). pose proof (u8_range b1).
  unfold PutUint16. repeat f_equal; byte_of_sum.
Qed.

Lemma PutUint32_of v b0 b1 b2 b3 :
  v mod 2 ^ 32 = Uint32 [b0; b1; b2; b3] -> PutUint32 v = [b0; b1; b2; b3].
Proof.
  rewrite Uint32_sum. intros H.
  pose proof (u8_range b0). pose proof (u8_range b1).
  pose proof (u8_range b2). pose proof (u8_range b3).
  unfold PutUint32. repeat f_equal; byte_of_sum.
Qed.

Lemma PutUint64_of v b0 b1 b2 b3 b4 b5 b6 b7 :
  v mod 2 ^ 64 = Uint64 [b0; b1; b2; b3; b4; b5; b6; b7] ->
  PutUint64 v = [b0; b1; b2; b3; b4; b5; b6; b7].
Proof.
  rewrite Uint64_sum. intros H.
  pose proof (u8_range b0). pose proof (u8_range b1).
  pose proof (u8_range b2). pose proof (u8_range b3).
  pose proof (u8_range b4). pose proof (u8_range b5).
  pose proof (u8_range b6). pose proof (u8_range b7).
  unfold PutUint64. repeat f_equal; byte_of_sum.
Qed.

Lemma Uint16_range b0 b1 : 0 <= Uint16 [b0; b1] < 2 ^ 16.
Proof.
  rewrite Uint16_sum. pose proof (u8_range b0). pose proof (u8_range b1).
  lia.
Qed.

Lemma Uint32_range b0 b1 b2 b3 : 0 <= Uint32 [b0; b1; b2; b3] < 2 ^ 32.
Proof.
  rewrite Uint32_sum.
  pose proof (u8_range b0). pose proof (u8_range b1).
  pose proof (u8_range b2). pose proof (u8_range b3). lia.
Qed.

Lemma Uint64_range b0 b1 b2 b3 b4 b5 b6 b7 :
  0 <= Uint64 [b0; b1; b2; b3; b4; b5; b6; b7] < 2 ^ 64.
Proof.
  rewrite Uint64_sum.
  pose proof (u8_range b0). pose proof (u8_range b1).
  pose proof (u8_range b2). pose proof (u8_range b3).
  pose proof (u8_range b4). pose proof (u8_range b5).
  pose proof (u8_range b6). pose proof (u8_range b7). lia.
Qed.

(** ** Strings *)

Lemma readRawUShort_PutUint16 n r :
  0 <= n < 2 ^ 16 -> readRawUShort (PutUint16 n ++ r) = Ok (n, r).
Proof.
  intros Hn. unfold readRawUShort.
  rewrite (bind_step _ _ _ _ _ (ReadFull_app (PutUint16 n) r)).
  unfold ret. rewrite Uint16_PutUint16, Z.mod_small by assumption.
  reflexivity.
Qed.

(** X1.  A text of fewer than 65536 bytes, written as its length on two
    big-endian bytes followed by its bytes, is read back by [readRawString]
    and by the String reader as the string with exactly these bytes (no
    byte is changed, validated or dropped), and what follows is left
    unread. *)
Theorem string_roundtrip (bs : list byte) (r : stream) :
  Z.of_nat (length bs) < 65536 ->
  readRawString (PutUint16 (Z.of_nat (length bs)) ++ bs ++ r)
  = Ok (string_of_list_byte bs, r)
  /\ readNodeOfType NodeTypeString false
       (PutUint16 (Z.of_nat (length bs)) ++ bs ++ r)
     = Ok (StringNode (string_of_list_byte bs), r)
  /\ list_byte_of_string (string_of_list_byte bs) = bs.
Proof.
  intros Hlen.
  assert (H : readRawString (PutUint16 (Z.of_nat (length bs)) ++ bs ++ r)
              = Ok (string_of_list_byte bs, r)).
  { unfold readRawString.
    rewrite (bind_step _ _ _ _ _
               (readRawUShort_PutUint16 (Z.of_nat (length bs)) (bs ++ r)
                  ltac:(lia))).
    rewrite Nat2Z.id.
    rewrite (bind_step _ _ _ _ _ (ReadFull_app bs r)). reflexivity. }
  split; [exact H|]. split.
  - change (readStringNode (PutUint16 (Z.of_nat (length bs)) ++ bs ++ r)
            = Ok (StringNode (string_of_list_byte bs), r)).
    unfold readStringNode. rewrite (bind_step _ _ _ _ _ H). reflexivity.
  - apply list_byte_of_string_of_list_byte.
Qed.

Lemma string_roundtrip_witness :
  readRawString [x00; x02; "h"%byte; "i"%byte; xff] = Ok ("hi"%string, [xff])
  /\ readNodeOfType NodeTypeString false [x00; x02; "h"%byte; "i"%byte; xff]
     = Ok (StringNode "hi", [xff])
  /\ list_byte_of_string "hi" = ["h"%byte; "i"%byte].
Proof.
  apply (string_roundtrip ["h"%byte; "i"%byte] [xff]). simpl. lia.
Defined.

(** ** Scalars, from the bytes to the value *)

(** X2.  Whatever a scalar reader (Byte, Short, Int, Long, Float, Double)
    returns is a value of its Go type (in the range of the signed integer
    type, or a bit pattern of the float type), and the bytes it consumed
    are exactly the big-endian representation of that value, as many as the
    width of the kind: two different byte sequences never give the same
    scalar. *)
Theorem scalar_read_canonical
    (t : NodeType) (isRoot : bool) (r : stream) (node : Node) (r' : stream)
    (w : nat) :
  scalar_width t = Some w ->
  readNodeOfType t isRoot r = Ok (node, r') ->
  exists s,
    scalar_tag s = t /\ representable s /\ node = scalar_node s /\
    r = scalar_bytes s ++ r' /\ length (scalar_bytes s) = w.
Proof.
  intros Hw H. destruct t; try discriminate Hw; injection Hw as <-.
  - (* Byte *)
    apply bind_Ok in H as (b & r1 & H & [= <- <-]).
    apply bind_Ok in H as (val & r2 & H & [= <- <-]).
    apply ReadFull_Ok in H as [-> Hlen].
    destruct val as [|b0 [|]]; try discriminate Hlen.
    exists (SByte b0). repeat split.
  - (* Short *)
    apply bind_Ok in H as (val & r1 & H & [= <- <-]).
    apply ReadFull_Ok in H as [-> Hlen].
    destruct val as [|b0 [|b1 [|]]]; try discriminate Hlen.
    exists (SShort (int16 (Uint16 [b0; b1]))).
    pose proof (Uint16_range b0 b1).
    split; [reflexivity|]. split; [apply (to_signed_range 16); lia|].
    split; [reflexivity|]. split; [|reflexivity]. cbn [scalar_bytes].
    rewrite (PutUint16_of _ b0 b1) by (apply (to_signed_unsigned 16); lia). reflexivity.
  - (* Int *)
    apply bind_Ok in H as (v & r1 & H & [= <- <-]).
    apply readRawInt_Ok in H as (val & -> & Hlen & ->).
    destruct val as [|b0 [|b1 [|b2 [|b3 [|]]]]]; try discriminate Hlen.
    exists (SInt (int32 (Uint32 [b0; b1; b2; b3]))).
    pose proof (Uint32_range b0 b1 b2 b3).
    split; [reflexivity|]. split; [apply (to_signed_range 32); lia|].
    split; [reflexivity|]. split; [|reflexivity]. cbn [scalar_bytes].
    rewrite (PutUint32_of _ b0 b1 b2 b3) by (apply (to_signed_unsigned 32); lia). reflexivity.
  - (* Long *)
    apply bind_Ok in H as (val & r1 & H & [= <- <-]).
    apply ReadFull_Ok in H as [-> Hlen].
    destruct val as [|b0 [|b1 [|b2 [|b3 [|b4 [|b5 [|b6 [|b7 [|]]]]]]]]];
      try discriminate Hlen.
    exists (SLong (int64 (Uint64 [b0; b1; b2; b3; b4; b5; b6; b7]))).
    pose proof (Uint64_range b0 b1 b2 b3 b4 b5 b6 b7).
    split; [reflexivity|]. split; [apply (to_signed_range 64); lia|].
    split; [reflexivity|]. split; [|reflexivity]. cbn [scalar_bytes].
    rewrite (PutUint64_of _ b0 b1 b2 b3 b4 b5 b6 b7) by (apply (to_signed_unsigned 64); lia). reflexivity.
  - (* Float *)
    apply bind_Ok in H as (val & r1 & H & [= <- <-]).
    apply ReadFull_Ok in H as [-> Hlen].
    destruct val as [|b0 [|b1 [|b2 [|b3 [|]]]]]; try discriminate Hlen.
    exists (SFloat (Float32frombits (Uint32 [b0; b1; b2; b3]))).
    pose proof (Uint32_range b0 b1 b2 b3).
    split; [reflexivity|]. split; [assumption|].
    split; [reflexivity|]. split; [|reflexivity].
    cbn [scalar_bytes Float32bits Float64bits].
    rewrite (PutUint32_of _ b0 b1 b2 b3) by (apply Z.mod_small; assumption). reflexivity.
  - (* Double *)
    apply bind_Ok in H as (val & r1 & H & [= <- <-]).
    apply ReadFull_Ok in H as [-> Hlen].
    destruct val as [|b0 [|b1 [|b2 [|b3 [|b4 [|b5 [|b6 [|b7 [|]]]]]]]]];
      try discriminate Hlen.
    exists (SDouble (Float64frombits (Uint64 [b0; b1; b2; b3; b4; b5; b6; b7]))).
    pose proof (Uint64_range b0 b1 b2 b3 b4 b5 b6 b7).
    split; [reflexivity|]. split; [assumption|].
    split; [reflexivity|]. split; [|reflexivity].
    cbn [scalar_bytes Float32bits Float64bits].
    rewrite (PutUint64_of _ b0 b1 b2 b3 b4 b5 b6 b7) by (apply Z.mod_small; assumption). reflexivity.
Qed.

Lemma scalar_read_canonical_witness :
  exists s,
    scalar_tag s = NodeTypeShort /\ representable s /\
    ShortNode (-2) = scalar_node s /\
    [xff; xfe; x01] = scalar_bytes s ++ [x01] /\
    length (scalar_bytes s) = 2%nat.
Proof.
  apply (scalar_read_canonical NodeTypeShort false [xff; xfe; x01]
           (ShortNode (-2)) [x01] 2); reflexivity.
Defined.

(** X3.  A scalar reader fails for one reason only, too few bytes: given at
    least as many bytes as the width of its kind it succeeds and consumes
    exactly that many; given fewer it fails, with [io.EOF] on an empty
    stream and with [io.ErrUnexpectedEOF] otherwise. *)
Theorem scalar_read_width
    (t : NodeType) (isRoot : bool) (r : stream) (w : nat) :
  scalar_width t = Some w ->
  ((w <= length r)%nat ->
   exists node, readNodeOfType t isRoot r = Ok (node, skipn w r))
  /\ ((length r < w)%nat ->
      readNodeOfType t isRoot r
      = Err (match r with [] => EOF | _ => ErrUnexpectedEOF end)).
Proof.
  intros Hw.
  destruct t; try discriminate Hw; injection Hw as <-;
    (split; intros Hlen;
     [ apply Nat.leb_le in Hlen | apply Nat.leb_gt in Hlen ];
     unfold readNodeOfType, fuel_for; simpl readNodeOfType_fuel;
     cbv beta iota delta
       [readByteNode readShortNode readIntNode readLongNode readFloatNode
        readDoubleNode readRawByte readRawInt bind ret ReadFull];
     rewrite Hlen; [eexists; reflexivity | destruct r; reflexivity]).
Qed.

Lemma scalar_read_width_witness :
  ((4 <= length [x00; x00; x01; x00; x07])%nat ->
   exists node,
     readNodeOfType NodeTypeInt false [x00; x00; x01; x00; x07]
     = Ok (node, skipn 4 [x00; x00; x01; x00; x07]))
  /\ ((length [x00; x00; x01; x00; x07] < 4)%nat ->
      readNodeOfType NodeTypeInt false [x00; x00; x01; x00; x07]
      = Err ErrUnexpectedEOF).
Proof.
  apply (scalar_read_width NodeTypeInt false [x00; x00; x01; x00; x07] 4).
  reflexivity.
Defined.

(** ** Lists and integer arrays, child by child *)

Lemma childLoop_children t n i Values r Values' r' :
  childLoop (readNodeOfType t false) n i Values r = Ok (Values', r') <->
  exists cs, length cs = n /\ children t r cs r' /\
             Values' = Values ++ map Some cs.
Proof.
  revert i Values r. induction n as [|n IH]; intros i Values r; simpl.
  - split.
    + intros [= <- <-]. exists []. rewrite app_nil_r.
      repeat split. constructor.
    + intros (cs & Hlen & Hcs & ->). destruct cs; [|discriminate Hlen].
      inversion Hcs; subst. rewrite app_nil_r. reflexivity.
  - split.
    + intros H. apply bind_Ok in H as (c & r1 & Hc & H).
      apply wrap_Ok in Hc. apply IH in H as (cs & Hlen & Hcs & ->).
      exists (c :: cs). split; [simpl; lia|]. split.
      * econstructor; eassumption.
      * rewrite <- app_assoc. reflexivity.
    + intros (cs & Hlen & Hcs & ->).
      destruct cs as [|c cs]; [discriminate Hlen|].
      inversion Hcs as [|? ? r1 ? ? Hc Hrest]; subst.
      assert (Hw : wrap (ReadListIndex i) (readNodeOfType t false) r
                   = Ok (c, r1)) by (apply wrap_Ok, Hc).
      rewrite (bind_step _ _ _ _ _ Hw). apply IH.
      exists cs. split; [simpl in Hlen; lia|]. split; [assumption|].
      rewrite <- app_assoc. reflexivity.
Qed.

Lemma childLoop_Err_at t r cs r1 :
  children t r cs r1 ->
  forall n i Values e,
    (length cs < n)%nat ->
    readNodeOfType t false r1 = Err e ->
    childLoop (readNodeOfType t false) n i Values r
    = Err (Wrapped (ReadListIndex (i + Z.of_nat (length cs))) e).
Proof.
  induction 1 as [r|r c r1 cs r2 Hc _ IH]; intros n i Values e Hlen He;
    (destruct n as [|n]; [simpl in Hlen; lia|]); simpl childLoop.
  - rewrite Z.add_0_r. apply bind_Err, wrap_Err, He.
  - assert (Hw : wrap (ReadListIndex i) (readNodeOfType t false) r
                 = Ok (c, r1)) by (apply wrap_Ok, Hc).
    rewrite (bind_step _ _ _ _ _ Hw).
    rewrite (IH n (i + 1) _ e) by (simpl in Hlen; lia || assumption).
    do 3 f_equal. simpl length. lia.
Qed.

(** The slice-building part shared by [readListNode] and
    [readIntArrayNode]. *)
Lemma presized_children t childCount r Values r' :
  (let* Values := make_Nodes childCount in
   childLoop (readNodeOfType t false) (Z.to_nat childCount) 0 Values) r
  = Ok (Values, r') <->
  0 <= childCount /\
  exists cs, length cs = Z.to_nat childCount /\ children t r cs r' /\
             Values = repeat None (Z.to_nat childCount) ++ map Some cs.
Proof.
  unfold bind at 1, make_Nodes.
  destruct (Z.ltb_spec childCount 0) as [Hneg|Hpos].
  - split; [discriminate|]. intros [H _]. lia.
  - rewrite childLoop_children. split; [auto|]. intros [_ H]. exact H.
Qed.

(** X4.  A List payload (child type [t], then a count on four bytes) decodes
    successfully exactly when the count is not negative and count-many
    values of type [t] can be read one after the other from what follows;
    the node then holds count-many nil entries followed by these values in
    reading order, and the stream is left after the last of them.  In
    particular a count of zero succeeds with an empty list whatever [t] is,
    also for a type without reader. *)
Theorem list_read_children
    (isRoot : bool) (t : NodeType) (val : list byte) (r : stream)
    (node : Node) (r' : stream) :
  length val = 4%nat ->
  (readNodeOfType NodeTypeList isRoot (t :: val ++ r) = Ok (node, r') <->
   0 <= int32 (Uint32 val) /\
   exists cs,
     length cs = Z.to_nat (int32 (Uint32 val)) /\
     children t r cs r' /\
     node = ListNode (repeat None (Z.to_nat (int32 (Uint32 val)))
                      ++ map Some cs)).
Proof.
  intros Hlen. rewrite readNodeOfType_List. unfold readListNode.
  rewrite (bind_step _ _ _ _ _ (readRawNodeType_cons t _)).
  rewrite (bind_step _ _ _ _ _ (readRawInt_app val r Hlen)).
  set (n := int32 (Uint32 val)).
  pose proof (presized_children t n r) as Hp.
  split.
  - intros H.
    apply bind_Ok in H as (V0 & r0 & Hm & H).
    apply bind_Ok in H as (V & r1 & Hl & [= <- <-]).
    destruct (proj1 (Hp V r1)) as (Hpos & cs & Hcs & Hch & ->).
    { unfold bind at 1. rewrite Hm. exact Hl. }
    split; [assumption|]. exists cs. auto.
  - intros (Hpos & cs & Hcs & Hch & ->).
    assert (H : (let* Values := make_Nodes n in
                 childLoop (readNodeOfType t false) (Z.to_nat n) 0 Values) r
                = Ok (repeat None (Z.to_nat n) ++ map Some cs, r'))
      by (apply Hp; eauto).
    unfold bind in H |- *. destruct (make_Nodes n r) as [[V0 r0]| | |];
      try discriminate H.
    rewrite H. reflexivity.
Qed.

Lemma list_read_children_witness :
  readNodeOfType NodeTypeList false
    [NodeTypeEnd; x00; x00; x00; x00; x07] = Ok (ListNode [], [x07]).
Proof.
  apply (list_read_children false NodeTypeEnd [x00; x00; x00; x00] [x07]);
    [reflexivity|].
  split; [discriminate|]. exists []. repeat split. constructor.
Defined.

(** X5.  When the child at index [i] of a List cannot be read, after the
    [i] children before it were read, the List read fails with the error of
    that child under the context "read list index i": the index in the
    message is the number of children read successfully. *)
Theorem list_error_index
    (isRoot : bool) (t : NodeType) (val : list byte) (r : stream)
    (cs : list Node) (r1 : stream) (e : error) :
  length val = 4%nat ->
  children t r cs r1 ->
  Z.of_nat (length cs) < int32 (Uint32 val) ->
  readNodeOfType t false r1 = Err e ->
  readNodeOfType NodeTypeList isRoot (t :: val ++ r)
  = Err (Wrapped (ReadListIndex (Z.of_nat (length cs))) e).
Proof.
  intros Hlen Hcs Hlt He. rewrite readNodeOfType_List. unfold readListNode.
  rewrite (bind_step _ _ _ _ _ (readRawNodeType_cons t _)).
  rewrite (bind_step _ _ _ _ _ (readRawInt_app val r Hlen)).
  unfold bind at 1, make_Nodes.
  destruct (Z.ltb_spec (int32 (Uint32 val)) 0) as [Hneg|Hpos]; [lia|].
  apply bind_Err.
  rewrite (childLoop_Err_at t r cs r1 Hcs _ 0 _ e) by (lia || assumption).
  reflexivity.
Qed.

Lemma list_error_index_witness :
  readNodeOfType NodeTypeList false
    [NodeTypeShort; x00; x00; x00; x02; x00; x05; x09]
  = Err (Wrapped (ReadListIndex 1) ErrUnexpectedEOF).
Proof.
  apply (list_error_index false NodeTypeShort [x00; x00; x00; x02]
           [x00; x05; x09] [ShortNode 5] [x09] ErrUnexpectedEOF).
  - reflexivity.
  - eapply children_cons; [reflexivity|apply children_nil].
  - vm_compute. reflexivity.
  - reflexivity.
Defined.

Lemma readIntNode_Ok r node r' :
  readIntNode r = Ok (node, r') ->
  exists v, - 2 ^ 31 <= v < 2 ^ 31 /\ node = IntNode v /\
            r = PutUint32 v ++ r'.
Proof.
  intros H. apply bind_Ok in H as (v & r1 & H & [= <- <-]).
  apply readRawInt_Ok in H as (val & -> & Hlen & ->).
  destruct val as [|b0 [|b1 [|b2 [|b3 [|]]]]]; try discriminate Hlen.
  pose proof (Uint32_range b0 b1 b2 b3).
  exists (int32 (Uint32 [b0; b1; b2; b3])).
  split; [apply (to_signed_range 32); lia|]. split; [reflexivity|].
  rewrite (PutUint32_of _ b0 b1 b2 b3)
    by (apply (to_signed_unsigned 32); lia).
  reflexivity.
Qed.

Lemma children_Int r cs r' :
  children NodeTypeInt r cs r' <->
  exists vs,
    Forall (fun v => - 2 ^ 31 <= v < 2 ^ 31) vs /\
    cs = map IntNode vs /\
    r = concat (map PutUint32 vs) ++ r'.
Proof.
  split.
  - induction 1 as [r|r c r1 cs r2 Hc _ IH].
    + exists []. repeat split. constructor.
    + destruct IH as (vs & Hvs & -> & ->).
      apply readIntNode_Ok in Hc as (v & Hv & -> & ->).
      exists (v :: vs). split; [constructor; assumption|].
      split; [reflexivity|]. cbn [map concat]. rewrite <- app_assoc.
      reflexivity.
  - intros (vs & Hvs & -> & ->).
    induction Hvs as [|v vs Hv _ IH]; cbn [map concat].
    + constructor.
    + rewrite <- app_assoc. econstructor; [|exact IH].
      apply (readIntNode_PutUint32 v _ Hv).
Qed.

(** X6.  An IntArray payload (a count on four bytes) decodes successfully
    exactly when the count is not negative and is followed by count-many
    integers of four big-endian bytes; the node then holds count-many nil
    entries followed by the Int nodes of these integers, in order, each in
    the range of [int32].  Reading back the count and the integers written
    big-endian is the direction from right to left. *)
Theorem int_array_read
    (isRoot : bool) (val : list byte) (r : stream) (node : Node)
    (r' : stream) :
  length val = 4%nat ->
  (readNodeOfType NodeTypeIntArray isRoot (val ++ r) = Ok (node, r') <->
   0 <= int32 (Uint32 val) /\
   exists vs,
     length vs = Z.to_nat (int32 (Uint32 val)) /\
     Forall (fun v => - 2 ^ 31 <= v < 2 ^ 31) vs /\
     r = concat (map PutUint32 vs) ++ r' /\
     node = IntArrayNode (repeat None (Z.to_nat (int32 (Uint32 val)))
                          ++ map (fun v => Some (IntNode v)) vs)).
Proof.
  intros Hlen. rewrite readNodeOfType_IntArray. unfold readIntArrayNode.
  rewrite (bind_step _ _ _ _ _ (readRawInt_app val r Hlen)).
  set (n := int32 (Uint32 val)).
  pose proof (presized_children NodeTypeInt n r) as Hp.
  split.
  - intros H.
    apply bind_Ok in H as (V0 & r0 & Hm & H).
    apply bind_Ok in H as (V & r1 & Hl & [= <- <-]).
    destruct (proj1 (Hp V r1)) as (Hpos & cs & Hcs & Hch & ->).
    { unfold bind at 1. rewrite Hm. exact Hl. }
    apply children_Int in Hch as (vs & Hvs & -> & ->).
    split; [assumption|]. exists vs. rewrite length_map in Hcs.
    rewrite map_map. auto.
  - intros (Hpos & vs & Hcs & Hvs & -> & ->).
    assert (H : (let* Values := make_Nodes n in
                 childLoop (readNodeOfType NodeTypeInt false) (Z.to_nat n) 0
                   Values) (concat (map PutUint32 vs) ++ r')
                = Ok (repeat None (Z.to_nat n)
                      ++ map Some (map IntNode vs), r')).
    { apply Hp. split; [assumption|]. exists (map IntNode vs).
      rewrite length_map. split; [assumption|]. split; [|reflexivity].
      apply children_Int. exists vs. auto. }
    rewrite map_map in H.
    unfold bind in H |- *.
    destruct (make_Nodes n (concat (map PutUint32 vs) ++ r'))
      as [[V0 r0]| | |]; try discriminate H.
    rewrite H. reflexivity.
Qed.

Lemma int_array_read_witness :
  readNodeOfType NodeTypeIntArray false
    [x00; x00; x00; x02; x00; x00; x00; x05; xff; xff; xff; xff; x09]
  = Ok (IntArrayNode [None; None; Some (IntNode 5); Some (IntNode (-1))],
        [x09]).
Proof.
  apply (int_array_read false [x00; x00; x00; x02]); [reflexivity|].
  split; [discriminate|]. exists [5; -1]. split; [reflexivity|].
  split; [repeat constructor; lia|]. split; reflexivity.
Defined.

(** X7.  An IntArray whose count is negative makes [readIntArrayNode]
    panic in [make], whatever follows the count; no error is returned. *)
Theorem int_array_negative_count_panics
    (isRoot : bool) (val : list byte) (r : stream) :
  length val = 4%nat -> int32 (Uint32 val) < 0 ->
  readNodeOfType NodeTypeIntArray isRoot (val ++ r)
  = Panic MakesliceLenOutOfRange.
Proof.
  intros Hlen Hneg. rewrite readNodeOfType_IntArray.
  unfold readIntArrayNode.
  rewrite (bind_step _ _ _ _ _ (readRawInt_app val r Hlen)).
  unfold bind, make_Nodes.
  destruct (Z.ltb_spec (int32 (Uint32 val)) 0); [reflexivity|lia].
Qed.

Lemma int_array_negative_count_panics_witness :
  readNodeOfType NodeTypeIntArray false [x80; x00; x00; x00; x01]
  = Panic MakesliceLenOutOfRange.
Proof.
  apply (int_array_negative_count_panics false [x80; x00; x00; x00] [x01]);
    [reflexivity|vm_compute; reflexivity].
Defined.

(** ** The type reported by a decoded node *)

(** X8.  A node read for the wire tag [t] reports [t] as its [Type()], for
    every tag except String; a node read for the String tag reports the Int
    tag. *)
Theorem node_type_of_read
    (t : NodeType) (isRoot : bool) (r : stream) (node : Node) (r' : stream) :
  readNodeOfType t isRoot r = Ok (node, r') ->
  (t <> NodeTypeString -> Type_ node = t)
  /\ (t = NodeTypeString -> Type_ node = NodeTypeInt).
Proof.
  intros H. apply Type_of_read in H. split.
  - intros Hne. rewrite H.
    destruct (Byte.eqb t NodeTypeString) eqn:E; [|reflexivity].
    apply Byte.byte_dec_bl in E. contradiction.
  - intros ->. exact H.
Qed.

Lemma node_type_of_read_witness :
  (NodeTypeList <> NodeTypeString -> Type_ (ListNode []) = NodeTypeList)
  /\ (NodeTypeList = NodeTypeString -> Type_ (ListNode []) = NodeTypeInt).
Proof.
  apply (node_type_of_read NodeTypeList false
           [NodeTypeEnd; x00; x00; x00; x00] (ListNode []) []).
  reflexivity.
Defined.

(** ** The errors of the decoder *)

Section Errs.
Context {A B : Type} (P : error -> Prop).

Lemma errs_ret (a : A) : errs P (ret a).
Proof. intros r e H. discriminate. Qed.

Lemma errs_bind (m : M A) (k : A -> M B) :
  errs P m -> (forall a, errs P (k a)) -> errs P (bind m k).
Proof.
  intros Hm Hk r e H. unfold bind in H.
  destruct (m r) as [[a r1]|e1|p|] eqn:E; try discriminate.
  - exact (Hk a r1 e H).
  - injection H as <-. exact (Hm r e1 E).
Qed.

Lemma errs_wrap c (m : M A) :
  (forall e, P e -> P (Wrapped c e)) -> errs P m -> errs P (wrap c m).
Proof.
  intros Hc Hm r e H. unfold wrap in H.
  destruct (m r) as [x|e1|p|] eqn:E; try discriminate.
  injection H as <-. apply Hc, (Hm r e1 E).
Qed.
End Errs.

Lemma decode_error_Wrapped c e : decode_error e -> decode_error (Wrapped c e).
Proof. unfold decode_error, truncated. simpl. tauto. Qed.

Lemma errs_ReadFull n : errs decode_error (ReadFull n).
Proof.
  intros r e. unfold ReadFull.
  destruct (n <=? length r)%nat; [discriminate|].
  destruct (length r =? 0)%nat; intros [= <-]; left; unfold truncated; auto.
Qed.

Lemma errs_make_Nodes n : errs decode_error (make_Nodes n).
Proof.
  intros r e. unfold make_Nodes. destruct (n <? 0); discriminate.
Qed.

Create HintDb errs.
#[local] Hint Resolve errs_ret errs_bind errs_wrap decode_error_Wrapped
  errs_ReadFull errs_make_Nodes : errs.

Lemma errs_childLoop child n i Values :
  errs decode_error child -> errs decode_error (childLoop child n i Values).
Proof.
  intros Hc. revert i Values.
  induction n as [|n IH]; intros i Values; simpl; auto with errs.
Qed.

Lemma errs_compoundLoop rec fuel isRoot Values :
  (forall t b, errs decode_error (rec t b)) ->
  errs decode_error (compoundLoop rec fuel isRoot Values).
Proof.
  intros Hrec. revert Values.
  induction fuel as [|fuel IH]; intros Values; simpl.
  - intros r e H. discriminate.
  - unfold readRawNodeType, readRawString, readRawByte, readRawUShort.
    apply errs_bind; [auto with errs|]. intros t.
    destruct (Byte.eqb t NodeTypeEnd); [auto with errs|].
    apply errs_bind; [auto 6 with errs|]. intros childName.
    apply errs_bind; [auto with errs|]. intros childNode.
    destruct isRoot; auto with errs.
Qed.

#[local] Hint Resolve errs_childLoop errs_compoundLoop : errs.

Lemma errs_readNodeOfType_fuel fuel nodeType isRoot :
  errs decode_error (readNodeOfType_fuel fuel nodeType isRoot).
Proof.
  revert nodeType isRoot.
  induction fuel as [|fuel IH]; intros nodeType isRoot;
    destruct nodeType; simpl;
    first [ intros r e [= <-]; right; eexists; split; reflexivity
          | intros r e H; discriminate H
          | unfold readByteNode, readShortNode, readIntNode, readLongNode,
              readFloatNode, readDoubleNode, readStringNode,
              readListNode, readCompoundNode, readIntArrayNode,
              readRawNodeType, readRawString, readRawByte, readRawUShort,
              readRawInt;
            auto 9 with errs ].
Qed.



(** ** Bytes after the decoded value *)

(** X10.  A successful read looks at the bytes of the value only: with any
    other bytes behind them, the same node (for [ReadFromStream], the same
    tree) is returned and these other bytes are left unread.  Nothing is
    required of, or done with, what follows the value. *)
Theorem trailing_bytes_ignored :
  (forall t isRoot r node r',
     readNodeOfType t isRoot r = Ok (node, r') ->
     exists p, r = p ++ r' /\
       forall rest, readNodeOfType t isRoot (p ++ rest) = Ok (node, rest))
  /\ (forall r f r',
        ReadFromStream r = Ok (f, r') ->
        exists p, r = p ++ r' /\
          forall rest, ReadFromStream (p ++ rest) = Ok (f, rest)).
Proof.
  split.
  - intros t isRoot r node r' H.
    destruct (exact_readNodeOfType t isRoot r node r' H) as (p & Hp & Hext & _).
    eauto.
  - intros r f r' H.
    destruct (exact_ReadFromStream r f r' H) as (p & Hp & Hext & _).
    eauto.
Qed.

Lemma trailing_bytes_ignored_witness :
  exists p, document_x42 = p ++ [] /\
    forall rest,
      ReadFromStream (p ++ rest)
      = Ok (mkFile (CompoundNode {["" := CompoundNode {["x" := IntNode 42]}]}),
            rest).
Proof.
  apply (proj2 trailing_bytes_ignored document_x42). reflexivity.
Defined.

(** ** The root *)

Lemma readRoot_Ok r root r' :
  readNodeOfType NodeTypeCompound true r = Ok (root, r') ->
  exists t r0, r = t :: r0 /\
    ((t = NodeTypeEnd /\ root = CompoundNode ∅ /\ r' = r0)
     \/ (t <> NodeTypeEnd /\
         exists childName r1 childNode,
           readRawString r0 = Ok (childName, r1) /\
           readNodeOfType t false r1 = Ok (childNode, r') /\
           root = CompoundNode {[childName := childNode]})).
Proof.
  rewrite readNodeOfType_Compound. intros H.
  apply bind_Ok in H as (Values & r1 & H & [= <- <-]).
  rewrite readCompoundLoop_unfold in H.
  apply bind_Ok in H as (t & r0 & Ht & H).
  apply readRawNodeType_Ok in Ht as ->. exists t, r0. split; [reflexivity|].
  destruct (Byte.eqb t NodeTypeEnd) eqn:E.
  - apply Byte.byte_dec_bl in E. injection H as <- <-. left. auto.
  - apply Byte.eqb_false in E. right. split; [assumption|].
    apply bind_Ok in H as (childName & r2 & Hname & H).
    apply bind_Ok in H as (childNode & r3 & Hnode & [= <- <-]).
    apply wrap_Ok in Hnode. exists childName, r2, childNode. auto.
Qed.

(** X11.  Every tree returned by [ReadFromStream] has a Map as root, with
    no entry or with one: the stream starts with a tag byte; either this is
    End and the root is the empty Map, or it is followed by a name and one
    value of the type of the tag, and the root is the Map with this single
    entry.  Nothing after the first entry is read. *)
Theorem root_at_most_one_entry (r : stream) (f : File) (r' : stream) :
  ReadFromStream r = Ok (f, r') ->
  exists t r0, r = t :: r0 /\
    ((t = NodeTypeEnd /\ Root f = CompoundNode ∅ /\ r' = r0)
     \/ (t <> NodeTypeEnd /\
         exists childName r1 childNode,
           readRawString r0 = Ok (childName, r1) /\
           readNodeOfType t false r1 = Ok (childNode, r') /\
           Root f = CompoundNode {[childName := childNode]})).
Proof.
  intros H. apply bind_Ok in H as (root & r1 & H & [= <- <-]).
  apply wrap_Ok in H. simpl. apply readRoot_Ok, H.
Qed.

Lemma root_at_most_one_entry_witness :
  exists t r0, document_x42 = t :: r0 /\
    ((t = NodeTypeEnd /\
      CompoundNode {["" := CompoundNode {["x" := IntNode 42]}]}
      = CompoundNode ∅ /\ [] = r0)
     \/ (t <> NodeTypeEnd /\
         exists childName r1 childNode,
           readRawString r0 = Ok (childName, r1) /\
           readNodeOfType t false r1 = Ok (childNode, []) /\
           CompoundNode {["" := CompoundNode {["x" := IntNode 42]}]}
           = CompoundNode {[childName := childNode]})).
Proof.
  apply (root_at_most_one_entry document_x42
           (mkFile (CompoundNode {["" := CompoundNode {["x" := IntNode 42]}]}))
           []).
  reflexivity.
Defined.

(** ** Progress *)

Lemma strict_bind {A B} (m : M A) (k : A -> M B) :
  strict m -> (forall a, shrinks (k a)) -> strict (bind m k).
Proof.
  intros Hm Hk r b r' H. apply bind_Ok in H as (a & r1 & H1 & H2).
  apply Hm in H1. apply Hk in H2. lia.
Qed.

Lemma strict_ReadFull n : strict (ReadFull (S n)).
Proof.
  intros r val r' H. apply ReadFull_Ok in H as [-> Hlen].
  rewrite length_app. lia.
Qed.

Lemma strict_readNodeOfType t isRoot : strict (readNodeOfType t isRoot).
Proof.
  assert (Hb : strict readRawByte)
    by (apply strict_bind; [apply strict_ReadFull|];
        intros; apply exact_shrinks; auto with exact).
  assert (Hi : strict readRawInt)
    by (apply strict_bind; [apply strict_ReadFull|];
        intros; apply exact_shrinks; auto with exact).
  assert (Ht : strict readRawNodeType)
    by (apply strict_bind; [apply Hb|];
        intros; apply exact_shrinks; auto with exact).
  intros r node r' H. destruct t; try discriminate H.
  - revert H. apply strict_bind; [apply Hb|].
    intros; apply exact_shrinks; auto with exact.
  - revert H. apply strict_bind; [apply strict_ReadFull|].
    intros; apply exact_shrinks; auto with exact.
  - revert H. apply strict_bind; [apply Hi|].
    intros; apply exact_shrinks; auto with exact.
  - revert H. apply strict_bind; [apply strict_ReadFull|].
    intros; apply exact_shrinks; auto with exact.
  - revert H. apply strict_bind; [apply strict_ReadFull|].
    intros; apply exact_shrinks; auto with exact.
  - revert H. apply strict_bind; [apply strict_ReadFull|].
    intros; apply exact_shrinks; auto with exact.
  - revert H. apply strict_bind; [|intros; apply exact_shrinks; auto with exact].
    apply strict_bind; [|intros; apply exact_shrinks; auto with exact].
    apply strict_bind; [apply strict_ReadFull|].
    intros; apply exact_shrinks; auto with exact.
  - rewrite readNodeOfType_List in H. revert H.
    apply strict_bind; [apply Ht|].
    intros; apply exact_shrinks; auto 8 with exact.
  - rewrite readNodeOfType_Compound in H.
    apply bind_Ok in H as (Values & r1 & H & [= <- <-]).
    rewrite readCompoundLoop_unfold in H. revert H.
    apply strict_bind; [apply Ht|]. intros t. apply exact_shrinks.
    destruct (Byte.eqb t NodeTypeEnd); [auto with exact|].
    apply exact_bind; [auto with exact|]. intros childName.
    apply exact_bind; [auto with exact|]. intros childNode.
    destruct isRoot; [auto with exact|apply exact_readCompoundLoop].
  - rewrite readNodeOfType_IntArray in H. revert H.
    apply strict_bind; [apply Hi|].
    intros; apply exact_shrinks; auto 8 with exact.
Qed.

(** X12.  Every node that is read successfully takes at least one byte of
    the stream, whatever its type (an empty Map takes its End tag, an empty
    List its type and count): the decoder cannot produce a node without
    advancing in the stream. *)
Theorem read_consumes
    (t : NodeType) (isRoot : bool) (r : stream) (node : Node) (r' : stream) :
  readNodeOfType t isRoot r = Ok (node, r') ->
  (length r' < length r)%nat /\ exists p, p <> [] /\ r = p ++ r'.
Proof.
  intros H. pose proof (strict_readNodeOfType t isRoot r node r' H) as Hlt.
  split; [exact Hlt|].
  destruct (exact_readNodeOfType t isRoot r node r' H) as (p & -> & _).
  exists p. split; [|reflexivity]. intros ->. simpl in Hlt. lia.
Qed.

Lemma read_consumes_witness :
  (length [x07] < length [NodeTypeEnd; x07])%nat
  /\ exists p, p <> [] /\ [NodeTypeEnd; x07] = p ++ [x07].
Proof.
  apply (read_consumes NodeTypeCompound false [NodeTypeEnd; x07]
           (CompoundNode ∅) [x07]).
  reflexivity.
Defined.

(** ** Maps: keys and failures *)

(** X13.  The keys of a decoded Map (not the root) are exactly the names
    read from the stream, and every value of the Map is the value of an
    entry with that name: no key is invented and no name read is missing,
    so the Map has at most as many keys as entries were read. *)
Theorem compound_keys
    (r : stream) (Values : gmap string Node) (r' : stream) :
  readNodeOfType NodeTypeCompound false r = Ok (CompoundNode Values, r') ->
  exists es,
    entries r es r' /\
    (forall k, is_Some (Values !! k) <-> k ∈ es.*1) /\
    (forall k v, Values !! k = Some v -> (k, v) ∈ es) /\
    (size Values <= length es)%nat.
Proof.
  intros H. apply readCompound_entries in H as (es & Hes & [= ->]).
  exists es. split; [assumption|].
  assert (Hin : forall k v,
             (list_to_map (reverse es) : gmap string Node) !! k = Some v ->
             (k, v) ∈ es).
  { intros k v Hk. apply elem_of_list_to_map_2 in Hk.
    rewrite elem_of_reverse in Hk. exact Hk. }
  assert (Hkeys : forall k,
             is_Some ((list_to_map (reverse es) : gmap string Node) !! k)
             <-> k ∈ es.*1).
  { intros k. split.
    - intros [v Hv]. apply Hin in Hv.
      apply list_elem_of_fmap. exists (k, v). auto.
    - intros Hk. destruct (list_to_map (reverse es) !! k) eqn:E; [eauto|].
      apply not_elem_of_list_to_map_2 in E.
      rewrite fmap_reverse, elem_of_reverse in E. contradiction. }
  split; [exact Hkeys|]. split; [exact Hin|].
  rewrite <- length_reverse.
  generalize (reverse es). intros l.
  induction l as [|[k v] l IH]; simpl.
  - rewrite map_size_empty. lia.
  - destruct ((list_to_map l : gmap string Node) !! k) eqn:E.
    + rewrite map_size_insert_Some by eauto. lia.
    + rewrite map_size_insert_None by assumption. lia.
Qed.

Lemma compound_keys_witness :
  exists es,
    entries
      [x01; x00; x01; "k"%byte; x05; x01; x00; x01; "k"%byte; x06; x00; xff]
      es [xff] /\
    (forall k, is_Some (({["k"%string := ByteNode x06]} : gmap string Node)
                          !! k) <-> k ∈ es.*1) /\
    (forall k v, ({["k"%string := ByteNode x06]} : gmap string Node) !! k
                 = Some v -> (k, v) ∈ es) /\
    (size ({["k"%string := ByteNode x06]} : gmap string Node)
     <= length es)%nat.
Proof.
  apply (compound_keys
           [x01; x00; x01; "k"%byte; x05; x01; x00; x01; "k"%byte; x06; x00;
            xff]).
  reflexivity.
Defined.

Lemma readCompoundLoop_entries_read r es r1 :
  entries_read r es r1 ->
  forall Values,
    readCompoundLoop false Values r
    = readCompoundLoop false (assign_all es Values) r1.
Proof.
  induction 1 as [r|t r childName r1 childNode r2 es r3 Ht Hname Hnode _ IH];
    intros Values; [reflexivity|].
  rewrite (readCompoundLoop_child t r childName r1 Ht Hname false Values
             childNode r2 Hnode).
  apply IH.
Qed.

(** X14.  How a Map that is not the root fails, after any number of entries
    were read.  If the stream ends where the next tag is expected (the Map
    is not closed by End), the error is [io.EOF] without context.  If the
    name of the next entry cannot be read, its error is returned without
    context.  If the value of the next entry cannot be read, its error is
    returned under the context "read compound child" with the name of the
    entry. *)
Theorem compound_failures
    (r : stream) (es : list (string * Node)) (r1 : stream) :
  entries_read r es r1 ->
  (r1 = [] -> readNodeOfType NodeTypeCompound false r = Err EOF)
  /\ (forall t r2 e,
        r1 = t :: r2 -> t <> NodeTypeEnd ->
        readRawString r2 = Err e ->
        readNodeOfType NodeTypeCompound false r = Err e)
  /\ (forall t r2 childName r3 e,
        r1 = t :: r2 -> t <> NodeTypeEnd ->
        readRawString r2 = Ok (childName, r3) ->
        readNodeOfType t false r3 = Err e ->
        readNodeOfType NodeTypeCompound false r
        = Err (Wrapped (ReadCompoundChild childName) e)).
Proof.
  intros Hes.
  assert (Hloop : forall x,
            readCompoundLoop false (assign_all es ∅) r1 = Err x ->
            readNodeOfType NodeTypeCompound false r = Err x).
  { intros x Hx. rewrite readNodeOfType_Compound. apply bind_Err.
    rewrite (readCompoundLoop_entries_read r es r1 Hes). exact Hx. }
  split; [|split].
  - intros ->. apply Hloop. reflexivity.
  - intros t r2 e -> Ht He. apply Hloop.
    rewrite readCompoundLoop_unfold.
    rewrite (bind_step _ _ _ _ _ (readRawNodeType_cons t r2)).
    rewrite (eqb_End_false t Ht). apply bind_Err, He.
  - intros t r2 childName r3 e -> Ht Hname He. apply Hloop.
    apply (readCompoundLoop_child_Err t r2 childName r3 Ht Hname); exact He.
Qed.

Lemma compound_failures_witness :
  readNodeOfType NodeTypeCompound false
    [x01; x00; x01; "k"%byte; x05; x03; x00; x01; "n"%byte; x00; x00]
  = Err (Wrapped (ReadCompoundChild "n") ErrUnexpectedEOF).
Proof.
  apply (proj2 (proj2
           (compound_failures
              [x01; x00; x01; "k"%byte; x05; x03; x00; x01; "n"%byte; x00; x00]
              [("k"%string, ByteNode x05)]
              [x03; x00; x01; "n"%byte; x00; x00]
              ltac:(eapply (entries_read_cons NodeTypeByte);
                    [discriminate|reflexivity|reflexivity|
                     apply entries_read_nil])))
           NodeTypeInt [x00; x01; "n"%byte; x00; x00] "n"%string [x00; x00]);
    [reflexivity|discriminate|reflexivity|reflexivity].
Defined.

(** X15.  What [readRawString] consumes for a string is always its length
    on two big-endian bytes followed by exactly that many bytes, which are
    the bytes of the string; the length is below 65536. *)
Theorem string_read_canonical (r : stream) (str : string) (r' : stream) :
  readRawString r = Ok (str, r') ->
  exists bs,
    Z.of_nat (length bs) < 65536 /\
    str = string_of_list_byte bs /\
    r = PutUint16 (Z.of_nat (length bs)) ++ bs ++ r'.
Proof.
  intros H. apply bind_Ok in H as (strLen & r1 & Hl & H).
  apply bind_Ok in Hl as (val & r0 & Hl & [= <- <-]).
  apply ReadFull_Ok in Hl as [-> Hlen].
  destruct val as [|b0 [|b1 [|]]]; try discriminate Hlen.
  apply bind_Ok in H as (bs & r2 & H & [= <- <-]).
  apply ReadFull_Ok in H as [-> Hbs].
  pose proof (Uint16_range b0 b1) as Hr.
  assert (Hn : Z.of_nat (length bs) = Uint16 [b0; b1]) by lia.
  exists bs. split; [lia|]. split; [reflexivity|].
  rewrite Hn, (PutUint16_of _ b0 b1) by (apply Z.mod_small; assumption).
  reflexivity.
Qed.

Lemma string_read_canonical_witness :
  exists bs,
    Z.of_nat (length bs) < 65536 /\
    "hi"%string = string_of_list_byte bs /\
    [x00; x02; "h"%byte; "i"%byte; xff]
    = PutUint16 (Z.of_nat (length bs)) ++ bs ++ [xff].
Proof.
  apply (string_read_canonical [x00; x02; "h"%byte; "i"%byte; xff]).
  reflexivity.
Defined.

(** X16.  The order of the entries of a Map (not the root) does not matter
    when their names are distinct: two streams that hold the same entries
    in different orders decode to the same Map node. *)
Theorem compound_order_irrelevant
    (r1 r1' r2 r2' : stream) (es1 es2 : list (string * Node)) :
  entries r1 es1 r1' -> entries r2 es2 r2' ->
  NoDup es1.*1 -> es1 ≡ₚ es2 ->
  exists node,
    readNodeOfType NodeTypeCompound false r1 = Ok (node, r1') /\
    readNodeOfType NodeTypeCompound false r2 = Ok (node, r2').
Proof.
  intros H1 H2 Hnd Hperm.
  exists (CompoundNode (list_to_map (reverse es1))). split.
  - apply readCompound_entries. eauto.
  - apply readCompound_entries. exists es2. split; [assumption|]. f_equal.
    apply list_to_map_proper.
    + rewrite fmap_reverse, reverse_Permutation. exact Hnd.
    + rewrite !reverse_Permutation. exact Hperm.
Qed.

Lemma compound_order_irrelevant_witness :
  exists node,
    readNodeOfType NodeTypeCompound false
      [x01; x00; x01; "a"%byte; x05; x01; x00; x01; "b"%byte; x06; x00]
    = Ok (node, [])
    /\ readNodeOfType NodeTypeCompound false
         [x01; x00; x01; "b"%byte; x06; x01; x00; x01; "a"%byte; x05; x00]
       = Ok (node, []).
Proof.
  apply (compound_order_irrelevant _ _ _ _
           [("a"%string, ByteNode x05); ("b"%string, ByteNode x06)]
           [("b"%string, ByteNode x06); ("a"%string, ByteNode x05)]).
  - eapply (entries_child NodeTypeByte);
      [discriminate|reflexivity|reflexivity|].
    eapply (entries_child NodeTypeByte);
      [discriminate|reflexivity|reflexivity|].
    apply entries_End.
  - eapply (entries_child NodeTypeByte);
      [discriminate|reflexivity|reflexivity|].
    eapply (entries_child NodeTypeByte);
      [discriminate|reflexivity|reflexivity|].
    apply entries_End.
  - apply (bool_decide_unpack _). reflexivity.
  - apply perm_swap.
Defined.

(** ** Homogeneous lists *)

Lemma children_Type t r cs r' :
  children t r cs r' ->
  Forall (fun c => Type_ c
                   = if Byte.eqb t NodeTypeString then NodeTypeInt else t) cs.
Proof.
  induction 1 as [r|r c r1 cs r2 Hc _ IH]; constructor; [|exact IH].
  exact (Type_of_read t false r c r1 Hc).
Qed.

Lemma presized_Type t childCount r Values r' :
  (let* Values := make_Nodes childCount in
   childLoop (readNodeOfType t false) (Z.to_nat childCount) 0 Values) r
  = Ok (Values, r') ->
  Forall (fun x => forall c, x = Some c ->
            Type_ c = if Byte.eqb t NodeTypeString then NodeTypeInt else t)
         Values.
Proof.
  intros H. apply presized_children in H as (_ & cs & _ & Hcs & ->).
  apply Forall_app. split.
  - apply Forall_forall. intros x Hx c ->.
    apply list_elem_of_In, repeat_spec in Hx. discriminate.
  - apply Forall_fmap. apply children_Type in Hcs.
    eapply Forall_impl; [exact Hcs|]. intros c Hc c' [= <-]. exact Hc.
Qed.

(** X17.  The elements of a decoded List are of one kind: each element
    that is not nil was read with the child type [t] announced once in
    front of the count and, unless [t] is String, reports [t] as its
    [Type()]. *)
Theorem list_homogeneous
    (isRoot : bool) (t : NodeType) (val : list byte) (r : stream)
    (Values : list (option Node)) (r' : stream) :
  length val = 4%nat -> t <> NodeTypeString ->
  readNodeOfType NodeTypeList isRoot (t :: val ++ r)
  = Ok (ListNode Values, r') ->
  Forall (fun x => forall c, x = Some c -> Type_ c = t) Values.
Proof.
  intros Hlen Hne H.
  assert (Ht : Byte.eqb t NodeTypeString = false).
  { destruct (Byte.eqb t NodeTypeString) eqn:E; [|reflexivity].
    apply Byte.byte_dec_bl in E. contradiction. }
  rewrite readNodeOfType_List in H. unfold readListNode in H.
  rewrite (bind_step _ _ _ _ _ (readRawNodeType_cons t _)) in H.
  rewrite (bind_step _ _ _ _ _ (readRawInt_app val r Hlen)) in H.
  apply bind_Ok in H as (V0 & r0 & Hm & H).
  apply bind_Ok in H as (V & r1 & Hl & [= <- <-]).
  assert (Hp := presized_Type t (int32 (Uint32 val)) r V r1).
  rewrite Ht in Hp. apply Hp. unfold bind at 1. rewrite Hm. exact Hl.
Qed.

Lemma list_homogeneous_witness :
  Forall (fun x => forall c, x = Some c -> Type_ c = NodeTypeByte)
         [None; Some (ByteNode x07)].
Proof.
  apply (list_homogeneous false NodeTypeByte [x00; x00; x00; x01] [x07]
           [None; Some (ByteNode x07)] []);
    [reflexivity|discriminate|reflexivity].
Defined.

(** ** A short integer array *)

Lemma ints_available k :
  forall r, (4 * k <= length r)%nat ->
    exists cs r1,
      length cs = k /\ children NodeTypeInt r cs r1 /\
      length r = (4 * k + length r1)%nat.
Proof.
  induction k as [|k IH]; intros r H.
  - exists [], r. repeat split. constructor.
  - destruct r as [|b0 [|b1 [|b2 [|b3 r0]]]]; simpl in H; try lia.
    destruct (IH r0) as (cs & r1 & Hcs & Hch & Hl); [lia|].
    exists (IntNode (int32 (Uint32 [b0; b1; b2; b3])) :: cs), r1.
    split; [simpl; lia|]. split; [|simpl; lia].
    econstructor; [reflexivity|exact Hch].
Qed.

(** X18.  An IntArray that announces more integers than the stream holds
    fails at the first integer that is not complete: the error carries the
    index of that integer, the number of complete four-byte groups after
    the count, and is [io.EOF] when the stream ends exactly between two
    integers and [io.ErrUnexpectedEOF] when it ends inside one. *)
Theorem int_array_short (isRoot : bool) (val : list byte) (r : stream) :
  length val = 4%nat ->
  Z.of_nat (length r) < 4 * int32 (Uint32 val) ->
  readNodeOfType NodeTypeIntArray isRoot (val ++ r)
  = Err (Wrapped (ReadListIndex (Z.of_nat (length r) / 4))
           (if Z.of_nat (length r) mod 4 =? 0 then EOF
            else ErrUnexpectedEOF)).
Proof.
  intros Hlen Hshort.
  pose proof (Z.div_mod (Z.of_nat (length r)) 4 ltac:(lia)) as Hdm.
  pose proof (Z.mod_pos_bound (Z.of_nat (length r)) 4 ltac:(lia)) as Hm.
  assert (Hq : 0 <= Z.of_nat (length r) / 4)
    by (apply Z.div_pos; lia).
  destruct (ints_available (Z.to_nat (Z.of_nat (length r) / 4)) r)
    as (cs & r1 & Hcs & Hch & Hl); [lia|].
  assert (Hr1 : Z.of_nat (length r1) = Z.of_nat (length r) mod 4) by lia.
  assert (He : readNodeOfType NodeTypeInt false r1
               = Err (if Z.of_nat (length r) mod 4 =? 0 then EOF
                      else ErrUnexpectedEOF)).
  { rewrite <- Hr1.
    destruct r1 as [|? [|? [|? [|? r1]]]]; simpl length in *;
      try reflexivity.
    lia. }
  rewrite readNodeOfType_IntArray. unfold readIntArrayNode.
  rewrite (bind_step _ _ _ _ _ (readRawInt_app val r Hlen)).
  unfold bind at 1, make_Nodes.
  destruct (Z.ltb_spec (int32 (Uint32 val)) 0) as [Hneg|Hpos]; [lia|].
  apply bind_Err.
  rewrite (childLoop_Err_at NodeTypeInt r cs r1 Hch
             (Z.to_nat (int32 (Uint32 val))) 0 _ _)
    by first [exact He | lia].
  do 3 f_equal. lia.
Qed.

Lemma int_array_short_witness :
  readNodeOfType NodeTypeIntArray false
    [x00; x00; x00; x03; x00; x00; x00; x05; x00; x00]
  = Err (Wrapped (ReadListIndex 1) ErrUnexpectedEOF).
Proof.
  apply (int_array_short false [x00; x00; x00; x03]
           [x00; x00; x00; x05; x00; x00]);
    [reflexivity|vm_compute; reflexivity].
Defined.
